(** * Quine-McCluskey simplification of [logiccircuite.py]

    A shallow embedding of [qm_simplify] and [bits_to_expr], with Python's
    [int] modelled as [Z], [str] as [string], [set] as stdpp's [gset], and
    a raised [ValueError] as an explicit outcome. *)

From Stdlib Require Import ZArith String Ascii List Lia DecimalString.
From stdpp Require Import base option list gmap sets strings.

Local Open Scope string_scope.
Local Open Scope Z_scope.

#[local] Arguments String.append !_ _ / : simpl nomatch.

(** ** Python string and integer primitives *)

Module Py.

(** Binary digits of a positive number, most significant digit first. *)
Fixpoint pos_digits (p : positive) (acc : string) : string :=
  match p with
  | xH => String "1" acc
  | xO q => pos_digits q (String "0" acc)
  | xI q => pos_digits q (String "1" acc)
  end.

(** Digits of the absolute value, as [format(abs(m), 'b')] prints them. *)
Definition abs_digits (m : Z) : string :=
  match m with
  | Z0 => "0"
  | Zpos p => pos_digits p ""
  | Zneg p => pos_digits p ""
  end.

Fixpoint zeros (k : nat) : string :=
  match k with
  | O => ""
  | S k' => String "0" (zeros k')
  end.

(** Left padding with ['0'] up to width [w]; longer strings are kept whole. *)
Definition zfill (w : nat) (s : string) : string :=
  zeros (w - String.length s) ++ s.

(** [format(m, f'0{num_vars}b')].  A negative [num_vars] makes the format
    specification ['0-1b'], ['0-2b'], ... which Python rejects with a
    [ValueError] ([None] here).  With the ['0'] flag the sign comes first and
    the padding counts it in the width. *)
Definition format_bin (m num_vars : Z) : option string :=
  if num_vars <? 0 then None
  else if m <? 0
       then Some (String "-" (zfill (Z.to_nat num_vars - 1) (abs_digits m)))
       else Some (zfill (Z.to_nat num_vars) (abs_digits m)).

(** [t.replace('-', '0')]. *)
Fixpoint replace_dash (t : string) : string :=
  match t with
  | EmptyString => EmptyString
  | String c t' =>
      String (if Ascii.eqb c "-" then "0"%char else c) (replace_dash t')
  end.

Fixpoint int2_digits (s : string) (acc : Z) : option Z :=
  match s with
  | EmptyString => Some acc
  | String c s' =>
      if Ascii.eqb c "0" then int2_digits s' (2 * acc)
      else if Ascii.eqb c "1" then int2_digits s' (2 * acc + 1)
      else None
  end.

(** [int(s, 2)] on digit strings: the empty string and any character other
    than a binary digit raise [ValueError] ([None]).  Python's [int] also
    accepts a sign, blanks, underscores and a [0b] prefix; no string built
    by [qm_simplify] has any of them (see [next_minterms_total]). *)
Definition int2 (s : string) : option Z :=
  match s with
  | EmptyString => None
  | _ => int2_digits s 0
  end.

(** ['.'.join(terms)] and friends. *)
Fixpoint join (sep : string) (l : list string) : string :=
  match l with
  | [] => ""
  | [x] => x
  | x :: rest => x ++ sep ++ join sep rest
  end.

End Py.

(** ** The minimisation engine *)

(** What a call of [qm_simplify] does: return a set of patterns, raise
    [ValueError], or (in the model only) use up the recursion budget. *)
Inductive outcome : Type :=
  | Returned (patterns : gset string)
  | ValueError
  | OutOfFuel.

(** The body of the [for x, y in zip(a, b)] loop of [combine]: [diff] counts
    the differing positions, [res] collects the characters of the result. *)
Fixpoint combine_loop (a b : string) (diff : nat) (res : list ascii)
  : nat * list ascii :=
  match a, b with
  | String x a', String y b' =>
      if Ascii.eqb x y
      then combine_loop a' b' diff (res ++ [x])%list
      else combine_loop a' b' (S diff) (res ++ ["-"%char])%list
  | _, _ => (diff, res)
  end.

(** [combine(a, b)]: [None] is Python's [None]. *)
Definition combine (a b : string) : option string :=
  let '(diff, res) := combine_loop a b 0 [] in
  if Nat.eqb diff 1 then Some (string_of_list_ascii res) else None.

(** Python truthiness of the value of [combine]: [None] and the empty string
    are false. *)
Definition truthy (combined : option string) : bool :=
  match combined with
  | Some (String _ _) => true
  | _ => false
  end.

(** [{format(m, f'0{num_vars}b') for m in minterms}]. *)
Definition encode_terms (minterms : gset Z) (num_vars : Z)
  : option (gset string) :=
  list_to_set <$> mapM (λ m, Py.format_bin m num_vars) (elements minterms).

(** One round of the inner loop body, for the pair [(a, b)]. *)
Definition pair_step (a b : string) (st : gset string * gset string)
  : gset string * gset string :=
  match combine a b with
  | Some combined =>
      if truthy (Some combined)
      then ({[combined]} ∪ st.1, st.2 ∖ {[a]} ∖ {[b]})
      else st
  | None => st
  end.

(** The two nested [for] loops over [terms]; the state is
    [(new_terms, unchecked)], starting from [(set(), terms.copy())]. *)
Definition pair_loop (terms : gset string) : gset string * gset string :=
  set_fold (λ a st, set_fold (pair_step a) st terms) (∅, terms) terms.

(** [{int(t.replace('-', '0'), 2) for t in new_terms}]. *)
Definition next_minterms (new_terms : gset string) : option (gset Z) :=
  list_to_set <$> mapM (λ t, Py.int2 (Py.replace_dash t)) (elements new_terms).

(** [qm_simplify(minterms, num_vars)], with the recursion depth bounded by
    [fuel]. *)
Fixpoint qm_simplify (fuel : nat) (minterms : gset Z) (num_vars : Z)
  : outcome :=
  match fuel with
  | O => OutOfFuel
  | S fuel' =>
      match encode_terms minterms num_vars with
      | None => ValueError
      | Some terms =>
          let '(new_terms, unchecked) := pair_loop terms in
          if decide (new_terms = ∅) then Returned unchecked
          else
            match next_minterms new_terms with
            | None => ValueError
            | Some minterms' =>
                match qm_simplify fuel' minterms' num_vars with
                | Returned rest => Returned (rest ∪ unchecked)
                | failure => failure
                end
            end
      end
  end.

(** ** Coverage *)

(** Position by position: a ['-'] of the pattern agrees with any bit, another
    character only with itself; the two strings have the same length. *)
Fixpoint agrees (p e : string) : bool :=
  match p, e with
  | EmptyString, EmptyString => true
  | String c p', String d e' =>
      (Ascii.eqb c "-" || Ascii.eqb c d) && agrees p' e'
  | _, _ => false
  end.

(** Pattern [p] covers assignment index [m]: every position of [p] other than
    ['-'] agrees with the corresponding bit of the [num_vars]-bit encoding
    of [m]. *)
Definition covers (p : string) (m num_vars : Z) : bool :=
  match Py.format_bin m num_vars with
  | Some e => agrees p e
  | None => false
  end.

(** ** The renderer *)

(** The [for b, v in zip(bits, vars_sorted)] loop of [bits_to_expr]; [terms]
    is the list being appended to. *)
Fixpoint bits_loop (bits : string) (vars_sorted terms : list string)
  : list string :=
  match bits, vars_sorted with
  | String b bits', v :: vars' =>
      if Ascii.eqb b "1" then bits_loop bits' vars' (terms ++ [v])%list
      else if Ascii.eqb b "0" then bits_loop bits' vars' (terms ++ [("!" ++ v)%string])%list
      else bits_loop bits' vars' terms
  | _, _ => terms
  end.

(** [bits_to_expr(bits, vars_sorted)]. *)
Definition bits_to_expr (bits : string) (vars_sorted : list string) : string :=
  match bits_loop bits vars_sorted [] with
  | [] => "1"
  | terms => Py.join "." terms
  end.

(** ** The command line *)

(** The [argparse] namespace of [main]. *)
Record cli_args : Type := {
  expr : option string;
  dontcare : option string;
  kmap : bool;
  example : bool
}.

(** [{i for i, row in enumerate(table) if row['F'] == 1}], the table given
    by its column [F]. *)
Definition main_minterms (column_F : list Z) : gset Z :=
  list_to_set
    (omap (λ ir : nat * Z, if decide (ir.2 = 1) then Some (Z.of_nat ir.1) else None)
          (imap pair column_F)).

(** The simplification step of [main]:
    [qm_simplify(minterms, len(vars_sorted))].  Nothing in [main] reads
    [args.dontcare]. *)
Definition main_simplified (fuel : nat) (args : cli_args) (column_F : list Z)
    (vars_sorted : list string) : outcome :=
  qm_simplify fuel (main_minterms column_F) (Z.of_nat (length vars_sorted)).

(** ** Patterns as the specification describes them *)

Module Spec.

(** The alphabet of implicant patterns. *)
Inductive tern : Type := Zero | One | Dash.

Definition tern_char (t : tern) : ascii :=
  match t with
  | Zero => "0"
  | One => "1"
  | Dash => "-"
  end%char.

Fixpoint pattern_string (p : list tern) : string :=
  match p with
  | [] => EmptyString
  | t :: p' => String (tern_char t) (pattern_string p')
  end.

(** What one position emits: the positive literal, the negated literal, or
    nothing. *)
Definition literal (t : tern) (v : string) : option string :=
  match t with
  | One => Some v
  | Zero => Some ("!" ++ v)
  | Dash => None
  end.

Definition is_dash (t : tern) : bool :=
  match t with
  | Dash => true
  | _ => false
  end.

(** The renderer in the specification's words: the surviving literals joined
    by the AND connective ["."], and the constant ["1"] for a pattern of
    ['-'] only. *)
Definition render (p : list tern) (variable_names : list string) : string :=
  if forallb is_dash p then "1"
  else Py.join "." (omap id (zip_with literal p variable_names)).

End Spec.

(** ** Predicates on pattern strings *)

Definition binary_char (c : ascii) : bool :=
  Ascii.eqb c "0" || Ascii.eqb c "1".

Definition ternary_char (c : ascii) : bool :=
  binary_char c || Ascii.eqb c "-".

(** A string of binary digits only: no ['-'] in it. *)
Fixpoint binary (s : string) : bool :=
  match s with
  | EmptyString => true
  | String c s' => binary_char c && binary s'
  end.

(** A string over the alphabet of patterns. *)
Fixpoint ternary (s : string) : bool :=
  match s with
  | EmptyString => true
  | String c s' => ternary_char c && ternary s'
  end.

(** Number of positions that hold ['0']. *)
Fixpoint count_zeros (s : string) : nat :=
  match s with
  | EmptyString => O
  | String c s' => (if Ascii.eqb c "0" then 1 else 0)%nat + count_zeros s'
  end.

(** Number of positions, among those [zip] pairs up, where [a] and [b]
    differ. *)
Fixpoint hamming (a b : string) : nat :=
  match a, b with
  | String x a', String y b' =>
      (if Ascii.eqb x y then 0 else 1)%nat + hamming a' b'
  | _, _ => O
  end.

(** [a] with every position where [b] differs replaced by ['-']. *)
Fixpoint merge (a b : string) : string :=
  match a, b with
  | String x a', String y b' =>
      String (if Ascii.eqb x y then x else "-"%char) (merge a' b')
  | _, _ => EmptyString
  end.

(** [a] and [b] differ at position [i]. *)
Definition differ_at (a b : string) (i : nat) : Prop :=
  String.get i a ≠ String.get i b.

(** The input domain of the engine: indices in [[0, 2^num_vars)]. *)
Definition in_range (num_vars : Z) (indices : gset Z) : Prop :=
  ∀ m, m ∈ indices → 0 ≤ m < 2 ^ num_vars.

(** Every encoding of an index of the set holds at least [k] zeros. *)
Definition zeros_at_least (num_vars : Z) (k : nat) (indices : gset Z) : Prop :=
  ∀ m s, m ∈ indices → Py.format_bin m num_vars = Some s →
         (k ≤ count_zeros s)%nat.

(** ** The expression parser *)

(** [s.replace(old, new)] for a one-character [old]. *)
Fixpoint replace_char (old : ascii) (new : string) (s : string) : string :=
  match s with
  | EmptyString => EmptyString
  | String c s' =>
      if Ascii.eqb c old then new ++ replace_char old new s'
      else String c (replace_char old new s')
  end.

(** The character class [[A-Za-z0-9_]]. *)
Definition word_char (c : ascii) : bool :=
  let k := nat_of_ascii c in
  (Nat.leb 65 k && Nat.leb k 90) || (Nat.leb 97 k && Nat.leb k 122)
  || (Nat.leb 48 k && Nat.leb k 57) || Ascii.eqb c "_".

Definition starts_with_word (s : string) : bool :=
  match s with
  | String c _ => word_char c
  | EmptyString => false
  end.

(** [re.sub(r'!([A-Za-z0-9_]+)', r'(not \1)', s)], scanning from the left:
    [in_name] holds while the scan is inside the group of a match, which is
    greedy and ends at the first other character or at the end. *)
Fixpoint sub_not (s : string) (in_name : bool) : string :=
  match s with
  | EmptyString => if in_name then ")" else ""
  | String c s' =>
      if in_name && word_char c then String c (sub_not s' true)
      else
        (if in_name then ")" else "")
        ++ (if Ascii.eqb c "!" && starts_with_word s'
            then "(not " ++ sub_not s' true
            else String c (sub_not s' false))
  end.

(** [parse_expression(expr)]. *)
Definition parse_expression (expr : string) : string :=
  let expr := replace_char " " "" expr in
  let expr := replace_char "+" "|" (replace_char "." "&" expr) in
  sub_not expr false.

(** Character [c] occurs in [s]. *)
Fixpoint occurs (c : ascii) (s : string) : bool :=
  match s with
  | EmptyString => false
  | String d s' => Ascii.eqb d c || occurs c s'
  end.

(** Some ['!'] of [s] stands directly before a character of a name. *)
Fixpoint bang_before_word (s : string) : bool :=
  match s with
  | EmptyString => false
  | String c s' =>
      (Ascii.eqb c "!" && starts_with_word s') || bang_before_word s'
  end.

(** A name: characters of [[A-Za-z0-9_]] only. *)
Fixpoint all_word (s : string) : bool :=
  match s with
  | EmptyString => true
  | String c s' => word_char c && all_word s'
  end.

(** ** The truth table *)

(** [itertools.product([0, 1], repeat=repeat)], in the order it yields. *)
Fixpoint product01 (repeat : nat) : list (list Z) :=
  match repeat with
  | O => [[]]
  | S k => (cons 0 <$> product01 k) ++ (cons 1 <$> product01 k)
  end.

(** A [dict] with string keys, in insertion order. *)
Definition dict : Type := list (string * Z).

(** [d[k] = v]: an existing key keeps its place and takes the new value, a
    new key goes to the end. *)
Fixpoint dict_set (k : string) (v : Z) (d : dict) : dict :=
  match d with
  | [] => [(k, v)]
  | (k', v') :: d' =>
      if String.eqb k k' then (k', v) :: d' else (k', v') :: dict_set k v d'
  end.

(** [d[k]], [None] for [KeyError]. *)
Fixpoint dict_get (k : string) (d : dict) : option Z :=
  match d with
  | [] => None
  | (k', v) :: d' => if String.eqb k k' then Some v else dict_get k d'
  end.

(** [dict(zip(keys, values))]. *)
Definition dict_zip (keys : list string) (values : list Z) : dict :=
  fold_left (λ d kv, dict_set kv.1 kv.2 d) (zip keys values) [].

(** The digits of a combination, written as [format] writes them. *)
Fixpoint bits_string (combo : list Z) : string :=
  match combo with
  | [] => EmptyString
  | b :: combo' =>
      String (if decide (b = 0) then "0"%char else "1"%char) (bits_string combo')
  end.

Section truth_table.

(** [sorted(set(ch for ch in expr if ch.isalpha()))]: Unicode classification
    and sorting are left to the caller. *)
Variable letters_sorted : string → list string.

(** [evaluate_expression(expr, variables)], which hands the string to
    Python's [eval]; [None] when it raises. *)
Variable evaluate_expression : string → dict → option Z.

(** The body of the loop of [truth_table] for one combination. *)
Definition truth_table_row (vars_sorted : list string) (parsed_expr : string)
    (combo : list Z) : option dict :=
  let assignment := dict_zip vars_sorted combo in
  result ← evaluate_expression parsed_expr assignment;
  Some (dict_set "F" result assignment).

(** [truth_table(expr)]. *)
Definition truth_table (expr : string) : option (list dict) :=
  let vars_sorted := letters_sorted expr in
  let parsed_expr := parse_expression expr in
  mapM (truth_table_row vars_sorted parsed_expr)
       (product01 (length vars_sorted)).

(** The values [row['F']] of the rows, as [main] reads them. *)
Definition column_F (table : list dict) : option (list Z) :=
  mapM (dict_get "F") table.

End truth_table.

(** [' + '.join(bits_to_expr(s, vars_sorted) for s in simplified)], for the
    order [simplified_order] in which the set [simplified] is iterated. *)
Definition simplified_expr (simplified_order : list string)
    (vars_sorted : list string) : string :=
  Py.join " + " ((λ s, bits_to_expr s vars_sorted) <$> simplified_order).

(** ** The second script, [logiccir.py] *)

Module Logiccir.

(** [str(val)] for an [int]. *)
Definition py_str (val : Z) : string :=
  NilZero.string_of_int (Z.to_int val).

(** [s.replace('', new)]: [new] before every character and at the end. *)
Fixpoint replace_empty (new s : string) : string :=
  match s with
  | EmptyString => new
  | String c s' => new ++ String c (replace_empty new s')
  end.

(** [s.replace(old, new)] for a non-empty [old], scanning from the left;
    [skip] counts the characters of the last match still to be passed
    over. *)
Fixpoint replace_from (old new s : string) (skip : nat) : string :=
  match s with
  | EmptyString => EmptyString
  | String c s' =>
      match skip with
      | S k => replace_from old new s' k
      | O =>
          if String.prefix old s
          then new ++ replace_from old new s' (String.length old - 1)
          else String c (replace_from old new s' 0)
      end
  end.

(** [s.replace(old, new)]. *)
Definition str_replace (old new s : string) : string :=
  match old with
  | EmptyString => replace_empty new s
  | _ => replace_from old new s 0
  end.

(** The loop of [eval_expr]: every variable, in the order of the [dict],
    is replaced by its value. *)
Definition substitute (expr : string) (values : dict) : string :=
  fold_left (λ expr_eval kv, str_replace kv.1 (py_str kv.2) expr_eval)
            values expr.

Section eval.

(** [int(eval(s))], Python's evaluator; [None] when it raises. *)
Variable int_eval : string → option Z.

(** [eval_expr(expr, values)]. *)
Definition eval_expr (expr : string) (values : dict) : option Z :=
  int_eval (substitute expr values).

(** [truth_table(expr, variables)]. *)
Definition truth_table (expr : string) (variables : list string)
  : option (list (list Z * Z)) :=
  mapM (λ combination,
          result ← eval_expr expr (dict_zip variables combination);
          Some (combination, result))
       (product01 (length variables)).

End eval.

(** The character a one-character variable becomes. *)
Definition substituted_char (values : dict) (c : ascii) : string :=
  match dict_get (String c EmptyString) values with
  | Some val => py_str val
  | None => String c EmptyString
  end.

(** Every character replaced by a string of its own. *)
Fixpoint flat_map_chars (f : ascii → string) (s : string) : string :=
  match s with
  | EmptyString => EmptyString
  | String c s' => f c ++ flat_map_chars f s'
  end.

(** A variable of one character other than a digit, with value 0 or 1. *)
Definition bit_of_letter (kv : string * Z) : Prop :=
  ∃ c, kv.1 = String c EmptyString ∧ c ≠ "0"%char ∧ c ≠ "1"%char
       ∧ (kv.2 = 0 ∨ kv.2 = 1).

End Logiccir.

(** ** Adjacency of minterms *)

(** Two indices whose encodings [combine] merges: they differ in one bit. *)
Definition adjacent (num_vars x y : Z) : Prop :=
  ∃ a b, Py.format_bin x num_vars = Some a
         ∧ Py.format_bin y num_vars = Some b
         ∧ is_Some (combine a b).

(** * Facts about the primitives *)

Section primitives.

Import Py.

Lemma length_zeros k : String.length (zeros k) = k.
Proof. induction k; simpl; congruence. Qed.

Lemma length_append (s t : string) :
  String.length (s ++ t) = (String.length s + String.length t)%nat.
Proof. induction s; simpl; congruence. Qed.

Lemma length_pos_digits p acc :
  String.length (pos_digits p acc) = (Pos.size_nat p + String.length acc)%nat.
Proof.
  revert acc. induction p; intros acc; simpl; try rewrite IHp; simpl; lia.
Qed.

Lemma size_nat_bound p (n : nat) :
  Z.pos p < 2 ^ Z.of_nat n → (Pos.size_nat p ≤ n)%nat.
Proof.
  revert n. induction p; intros [|n] H; simpl in *; try lia;
    rewrite Nat2Z.inj_succ, Z.pow_succ_r in H by lia;
    try (specialize (IHp n); lia).
Qed.

Lemma binary_zeros k : binary (zeros k) = true.
Proof. induction k; simpl; auto. Qed.

Lemma binary_append s t : binary (s ++ t) = binary s && binary t.
Proof. induction s; simpl; [done|]. rewrite IHs. by rewrite andb_assoc. Qed.

Lemma binary_pos_digits p acc :
  binary (pos_digits p acc) = binary acc.
Proof. revert acc. induction p; intros acc; simpl; try rewrite IHp; done. Qed.

Lemma binary_abs_digits m : binary (abs_digits m) = true.
Proof. destruct m; simpl; try apply binary_pos_digits; done. Qed.

Lemma int2_digits_pos p acc :
  int2_digits (pos_digits p acc) 0 = int2_digits acc (Z.pos p).
Proof. revert acc. induction p; intros acc; simpl; try rewrite IHp; done. Qed.

Lemma int2_digits_zeros k s : int2_digits (zeros k ++ s) 0 = int2_digits s 0.
Proof. induction k; simpl; done. Qed.

Lemma int2_digits_abs m : 0 ≤ m → int2_digits (abs_digits m) 0 = Some m.
Proof. destruct m; intros H; simpl; [done| |lia]. by rewrite int2_digits_pos. Qed.

Lemma abs_digits_nonempty m : abs_digits m ≠ "".
Proof.
  destruct m as [|p|p]; simpl; [done| |]; intros H;
    apply (f_equal String.length) in H; rewrite length_pos_digits in H;
    destruct p; simpl in H; lia.
Qed.

End primitives.

(** * Facts about [format] *)

Section format_facts.

Import Py.

Lemma format_bin_nonneg m n :
  0 ≤ n → 0 ≤ m →
  format_bin m n = Some (zfill (Z.to_nat n) (abs_digits m)).
Proof.
  intros Hn Hm. unfold format_bin.
  destruct (Z.ltb_spec n 0); [lia|]. destruct (Z.ltb_spec m 0); [lia|]. done.
Qed.

Lemma format_bin_is_Some m n : 0 ≤ n → is_Some (format_bin m n).
Proof.
  intros Hn. unfold format_bin. destruct (Z.ltb_spec n 0); [lia|].
  destruct (m <? 0); eauto.
Qed.

Lemma format_bin_negative_width m n : n < 0 → format_bin m n = None.
Proof. intros Hn. unfold format_bin. destruct (Z.ltb_spec n 0); [done|lia]. Qed.

Lemma format_bin_binary m n s :
  0 ≤ m → format_bin m n = Some s → binary s = true.
Proof.
  unfold format_bin. intros Hm. destruct (n <? 0); [done|].
  destruct (Z.ltb_spec m 0); [lia|]. intros [= <-]. unfold zfill.
  by rewrite binary_append, binary_zeros, binary_abs_digits.
Qed.

Lemma format_bin_int2_digits m n s :
  0 ≤ m → format_bin m n = Some s → int2_digits s 0 = Some m.
Proof.
  unfold format_bin. intros Hm. destruct (n <? 0); [done|].
  destruct (Z.ltb_spec m 0); [lia|]. intros [= <-]. unfold zfill.
  by rewrite int2_digits_zeros, int2_digits_abs.
Qed.

Lemma format_bin_nonempty m n s : format_bin m n = Some s → s ≠ "".
Proof.
  unfold format_bin. destruct (n <? 0); [done|].
  destruct (m <? 0); intros [= <-]; [done|]. unfold zfill.
  intros H. apply (f_equal String.length) in H.
  rewrite length_append in H. simpl in H.
  pose proof (abs_digits_nonempty m). destruct (abs_digits m); simpl in *; [done|lia].
Qed.

Lemma format_bin_int2 m n s :
  0 ≤ m → format_bin m n = Some s → int2 s = Some m.
Proof.
  intros Hm Hs. pose proof (format_bin_nonempty _ _ _ Hs).
  pose proof (format_bin_int2_digits _ _ _ Hm Hs). by destruct s.
Qed.

Lemma format_bin_negative m n s :
  m < 0 → format_bin m n = Some s → ∃ s', s = String "-" s'.
Proof.
  unfold format_bin. intros Hm. destruct (n <? 0); [done|].
  destruct (Z.ltb_spec m 0); [|lia]. intros [= <-]. eauto.
Qed.

Lemma format_bin_length m n s :
  1 ≤ n → 0 ≤ m < 2 ^ n → format_bin m n = Some s →
  String.length s = Z.to_nat n.
Proof.
  unfold format_bin. intros Hn Hm. destruct (Z.ltb_spec n 0); [done|].
  destruct (Z.ltb_spec m 0); [lia|]. intros [= <-]. unfold zfill.
  rewrite length_append, length_zeros.
  enough (String.length (abs_digits m) ≤ Z.to_nat n)%nat by lia.
  destruct m as [|p|p]; simpl; [|rewrite length_pos_digits; simpl|lia].
  - lia.
  - rewrite Nat.add_0_r. apply size_nat_bound. rewrite Z2Nat.id by lia. lia.
Qed.

(** Two indices with the same encoding are the same index. *)
Lemma format_bin_inj m k n s :
  0 ≤ m → format_bin m n = Some s → format_bin k n = Some s → k = m.
Proof.
  intros Hm Hs Hk. destruct (Z.ltb_spec k 0) as [Hneg|Hpos].
  - destruct (format_bin_negative _ _ _ Hneg Hk) as [s' ->].
    by pose proof (format_bin_binary _ _ _ Hm Hs).
  - pose proof (format_bin_int2_digits _ _ _ Hm Hs).
    pose proof (format_bin_int2_digits _ _ _ Hpos Hk). congruence.
Qed.

End format_facts.

(** * Facts about [combine] *)

Section combine_facts.

Lemma combine_loop_spec a b diff res :
  combine_loop a b diff res
  = ((diff + hamming a b)%nat, (res ++ list_ascii_of_string (merge a b))%list).
Proof.
  revert b diff res. induction a as [|x a IH]; intros [|y b] diff res; simpl;
    rewrite ?app_nil_r, ?Nat.add_0_r; try done.
  destruct (Ascii.eqb x y); rewrite IH, <- app_assoc; simpl; f_equal; lia.
Qed.

(** The loop of [combine] computes the Hamming distance and the merge. *)
Lemma combine_spec a b :
  combine a b = if Nat.eqb (hamming a b) 1 then Some (merge a b) else None.
Proof.
  unfold combine. rewrite combine_loop_spec. simpl.
  by rewrite string_of_list_ascii_of_string.
Qed.

Lemma combine_Some a b c :
  combine a b = Some c ↔ hamming a b = 1%nat ∧ c = merge a b.
Proof.
  rewrite combine_spec. destruct (Nat.eqb_spec (hamming a b) 1); split;
    try (intros [= <-]; done); try (intros [? ->]; done).
Qed.

Lemma hamming_self a : hamming a a = O.
Proof. induction a as [|x a IH]; simpl; [done|]. by rewrite Ascii.eqb_refl. Qed.

Lemma combine_self a : combine a a = None.
Proof. rewrite combine_spec. by rewrite hamming_self. Qed.

Lemma length_merge a b :
  String.length a = String.length b →
  String.length (merge a b) = String.length a.
Proof.
  revert b. induction a as [|x a IH]; intros [|y b] H; simpl in *; try done.
  f_equal. apply IH. lia.
Qed.

Lemma hamming_0_eq a b :
  String.length a = String.length b → hamming a b = O → a = b.
Proof.
  revert b. induction a as [|x a IH]; intros [|y b] Hl H; simpl in *; try done.
  destruct (Ascii.eqb_spec x y); [|done]. subst. f_equal. apply IH; lia.
Qed.

Lemma merge_self a : merge a a = a.
Proof. induction a as [|x a IH]; simpl; [done|]. by rewrite Ascii.eqb_refl, IH. Qed.

Lemma get_ext a b :
  (∀ j, String.get j a = String.get j b) → a = b.
Proof.
  revert b. induction a as [|x a IH]; intros [|y b] H.
  - done.
  - specialize (H O). done.
  - specialize (H O). done.
  - pose proof (H O) as H0. simpl in H0. injection H0 as ->. f_equal.
    apply IH. intros j. apply (H (S j)).
Qed.

Lemma differ_at_hamming a b i :
  String.length a = String.length b → differ_at a b i → (1 ≤ hamming a b)%nat.
Proof.
  unfold differ_at.
  revert b i. induction a as [|x a IH]; intros [|y b] i Hl H; simpl in *; try done.
  destruct (Ascii.eqb_spec x y) as [->|]; [|lia].
  destruct i as [|i]; [done|]. simpl. apply (IH b i); [lia|done].
Qed.

(** Exactly one differing position: the distance is one, and the merge is
    [a] with that position overwritten by ['-']. *)
Lemma differ_once a b i :
  String.length a = String.length b →
  differ_at a b i → (∀ j, j ≠ i → String.get j a = String.get j b) →
  hamming a b = 1%nat
  ∧ String.get i (merge a b) = Some "-"%char
  ∧ (∀ j, j ≠ i → String.get j (merge a b) = String.get j a).
Proof.
  unfold differ_at.
  revert b i. induction a as [|x a IH]; intros [|y b] i Hl Hi Hj; simpl in *; try done.
  - destruct i as [|i].
    + assert (a = b) as <-.
      { apply get_ext. intros j. apply (Hj (S j)). lia. }
      destruct (Ascii.eqb_spec x y) as [->|]; [done|].
      rewrite merge_self, hamming_self. split; [done|]. split; [done|].
      intros [|j] ?; done.
    + pose proof (Hj O ltac:(lia)) as H0. simpl in H0. injection H0 as ->.
      rewrite Ascii.eqb_refl.
      destruct (IH b i) as (Hh & Hg & Ho); [lia|done| |].
      { intros j ?. apply (Hj (S j)). lia. }
      split; [lia|]. split; [done|].
      intros [|j] ?; [done|]. apply Ho. lia.
Qed.

(** Two differing positions: the distance is at least two. *)
Lemma differ_twice a b i j :
  String.length a = String.length b → i ≠ j →
  differ_at a b i → differ_at a b j → (2 ≤ hamming a b)%nat.
Proof.
  unfold differ_at.
  revert b i j. induction a as [|x a IH]; intros [|y b] i j Hl Hij Hi Hj;
    simpl in *; try done.
  - destruct (Ascii.eqb_spec x y) as [->|].
    + destruct i as [|i]; [done|]. destruct j as [|j]; [done|].
      apply (IH b i j); [lia|lia|done|done].
    + destruct i as [|i].
      * destruct j as [|j]; [done|].
        pose proof (differ_at_hamming a b j ltac:(lia) Hj). lia.
      * pose proof (differ_at_hamming a b i ltac:(lia) Hi). lia.
Qed.

End combine_facts.

(** * Strings of digits and patterns *)

Section alphabet_facts.

Import Py.

Lemma binary_char_cases c : binary_char c = true → c = "0"%char ∨ c = "1"%char.
Proof.
  unfold binary_char. destruct (Ascii.eqb_spec c "0"); [by left|].
  destruct (Ascii.eqb_spec c "1"); [by right|done].
Qed.

Lemma binary_ternary s : binary s = true → ternary s = true.
Proof.
  induction s as [|c s IH]; simpl; [done|]. unfold ternary_char.
  intros [-> ?]%andb_true_iff. simpl. auto.
Qed.

Lemma replace_dash_binary s : binary s = true → replace_dash s = s.
Proof.
  induction s as [|c s IH]; simpl; [done|].
  intros [Hc ?]%andb_true_iff. rewrite IH by done.
  by destruct (binary_char_cases c Hc) as [-> | ->].
Qed.

Lemma binary_replace_dash s : ternary s = true → binary (replace_dash s) = true.
Proof.
  induction s as [|c s IH]; simpl; [done|].
  intros [Hc ?]%andb_true_iff. rewrite IH by done.
  unfold ternary_char in Hc. destruct (Ascii.eqb_spec c "-") as [->|]; [done|].
  rewrite orb_false_r in Hc. by rewrite Hc.
Qed.

Lemma ternary_merge a b : ternary a = true → ternary (merge a b) = true.
Proof.
  revert b. induction a as [|x a IH]; intros [|y b]; simpl; try done.
  intros [Hx ?]%andb_true_iff. rewrite IH by done.
  destruct (Ascii.eqb x y); [by rewrite Hx|done].
Qed.

Lemma ternary_append s t : ternary (s ++ t) = ternary s && ternary t.
Proof. induction s; simpl; [done|]. rewrite IHs. by rewrite andb_assoc. Qed.

Lemma ternary_format_bin m n s : format_bin m n = Some s → ternary s = true.
Proof.
  unfold format_bin. destruct (n <? 0); [done|].
  destruct (m <? 0); intros [= <-]; simpl; unfold zfill;
    rewrite ternary_append, !binary_ternary;
    auto using binary_zeros, binary_abs_digits.
Qed.

Lemma int2_digits_binary s acc : binary s = true → is_Some (int2_digits s acc).
Proof.
  revert acc. induction s as [|c s IH]; intros acc; simpl; [eauto|].
  intros [Hc ?]%andb_true_iff.
  destruct (binary_char_cases c Hc) as [-> | ->]; simpl; auto.
Qed.

Lemma int2_binary s : binary s = true → s ≠ "" → is_Some (int2 s).
Proof. destruct s; [done|]. intros. by apply int2_digits_binary. Qed.

Lemma replace_dash_nonempty s : s ≠ "" → replace_dash s ≠ "".
Proof. by destruct s. Qed.

Lemma count_zeros_le s : (count_zeros s ≤ String.length s)%nat.
Proof. induction s as [|c s IH]; simpl; [done|]. destruct (Ascii.eqb c "0"); lia. Qed.

(** Two digit strings at distance one: replacing the ['-'] of their merge by
    ['0'] gives back the one that holds ['0'] where they differ, and that
    one has one more ['0'] than the other. *)
Lemma merge_binary a b :
  binary a = true → binary b = true →
  String.length a = String.length b → hamming a b = 1%nat →
  (replace_dash (merge a b) = a ∧ count_zeros a = S (count_zeros b))
  ∨ (replace_dash (merge a b) = b ∧ count_zeros b = S (count_zeros a)).
Proof.
  revert b. induction a as [|x a IH]; intros [|y b]; simpl; try done.
  intros [Hx Ha]%andb_true_iff [Hy Hb]%andb_true_iff Hl Hd.
  destruct (Ascii.eqb_spec x y) as [->|Hxy].
  - destruct (IH b) as [[-> ->] | [-> ->]]; try done; try lia.
    + left. split; [|done].
      by destruct (binary_char_cases y Hy) as [-> | ->].
    + right. split; [|done].
      by destruct (binary_char_cases y Hy) as [-> | ->].
  - assert (a = b) as <- by (apply hamming_0_eq; lia).
    rewrite merge_self, replace_dash_binary by done. simpl.
    destruct (binary_char_cases x Hx) as [-> | ->],
      (binary_char_cases y Hy) as [-> | ->]; try done; simpl; auto.
Qed.

End alphabet_facts.

(** * The pair loop *)

Section pair_loop_facts.

Lemma truthy_Some a b :
  truthy (combine a b) = true ↔ ∃ c, combine a b = Some c ∧ c ≠ "".
Proof.
  destruct (combine a b) as [[|x c]|]; simpl; split; try done.
  - by intros (? & [= <-] & ?).
  - eauto.
  - by intros (? & ? & ?).
Qed.

Lemma pair_step_eq a b st :
  pair_step a b st
  = match combine a b with
    | Some c =>
        if truthy (combine a b)
        then ({[c]} ∪ st.1, st.2 ∖ {[a]} ∖ {[b]})
        else st
    | None => st
    end.
Proof. unfold pair_step. by destruct (combine a b). Qed.

(** The inner loop, over the elements [lb] in any order. *)
Lemma inner_loop_spec a lb st :
  let st' := foldr (pair_step a) st lb in
  (∀ c, c ∈ st'.1 ↔
        c ∈ st.1 ∨ ∃ b, b ∈ lb ∧ combine a b = Some c ∧ c ≠ "")
  ∧ (∀ x, x ∈ st'.2 ↔
          x ∈ st.2 ∧ ∀ b, b ∈ lb → truthy (combine a b) = true → x ≠ a ∧ x ≠ b).
Proof.
  induction lb as [|b lb [IH1 IH2]]; simpl.
  - split; intros ?.
    + split; [by left|]. intros [? | (? & ?%elem_of_nil & ?)]; done.
    + split; [|tauto]. intros ?; split; [done|]. intros ? ?%elem_of_nil. done.
  - rewrite pair_step_eq. destruct (combine a b) as [c0|] eqn:Hc.
    + destruct (truthy (Some c0)) eqn:Ht; simpl.
      * split.
        -- intros c. rewrite elem_of_union, elem_of_singleton, IH1.
           split.
           ++ intros [-> | [? | (b' & ? & ? & ?)]]; [|by left|].
              ** right. exists b. rewrite elem_of_cons.
                 split; [by left|]. split; [done|]. by destruct c0.
              ** right. exists b'. rewrite elem_of_cons. auto.
           ++ intros [? | (b' & [-> | ?]%elem_of_cons & ? & ?)]; [auto| |].
              ** left. congruence.
              ** right. right. eauto.
        -- intros x. rewrite !elem_of_difference, !elem_of_singleton, IH2.
           split.
           ++ intros [[[? Hx] ?] ?]. split; [done|].
              intros b' [-> | ?]%elem_of_cons ?; [done|]. by apply Hx.
           ++ intros [? Hx]. destruct (Hx b) as [? ?].
              { rewrite elem_of_cons. by left. }
              { by rewrite Hc. }
              split; [|done]. split; [|done]. split; [done|].
              intros b' ? ?. apply Hx; [|done]. rewrite elem_of_cons. by right.
      * split.
        -- intros c. rewrite IH1. split.
           ++ intros [? | (b' & ? & ? & ?)]; [by left|].
              right. exists b'. rewrite elem_of_cons. auto.
           ++ intros [? | (b' & [-> | ?]%elem_of_cons & Hc' & ?)]; [auto| |].
              ** rewrite Hc in Hc'. injection Hc' as ->. by destruct c.
              ** right. eauto.
        -- intros x. rewrite IH2. split.
           ++ intros [? Hx]. split; [done|].
              intros b' [-> | ?]%elem_of_cons Hb'; [|by apply Hx].
              rewrite Hc in Hb'. congruence.
           ++ intros [? Hx]. split; [done|]. intros b' ? ?. apply Hx; [|done].
              rewrite elem_of_cons. by right.
    + split.
      * intros c. rewrite IH1. split.
        -- intros [? | (b' & ? & ? & ?)]; [by left|].
           right. exists b'. rewrite elem_of_cons. auto.
        -- intros [? | (b' & [-> | ?]%elem_of_cons & Hc' & ?)]; [auto| |].
           ++ congruence.
           ++ right. eauto.
      * intros x. rewrite IH2. split.
        -- intros [? Hx]. split; [done|].
           intros b' [-> | ?]%elem_of_cons Hb'; [|by apply Hx].
           rewrite Hc in Hb'. done.
        -- intros [? Hx]. split; [done|]. intros b' ? ?. apply Hx; [|done].
           rewrite elem_of_cons. by right.
Qed.

(** Both loops, over the elements [la] and [lb] in any order. *)
Lemma outer_loop_spec la lb st :
  let st' := foldr (λ a st, foldr (pair_step a) st lb) st la in
  (∀ c, c ∈ st'.1 ↔
        c ∈ st.1 ∨ ∃ a b, a ∈ la ∧ b ∈ lb ∧ combine a b = Some c ∧ c ≠ "")
  ∧ (∀ x, x ∈ st'.2 ↔
          x ∈ st.2 ∧ ∀ a b, a ∈ la → b ∈ lb →
                            truthy (combine a b) = true → x ≠ a ∧ x ≠ b).
Proof.
  induction la as [|a la [IH1 IH2]]; simpl.
  - split; intros ?.
    + split; [by left|]. intros [? | (? & ? & ?%elem_of_nil & ?)]; done.
    + split; [|tauto]. intros ?; split; [done|]. intros ? ? ?%elem_of_nil. done.
  - destruct (inner_loop_spec a lb
                (foldr (λ a st, foldr (pair_step a) st lb) st la)) as [I1 I2].
    simpl in I1, I2. split.
    + intros c. rewrite I1, IH1. split.
      * intros [[? | (a' & b' & ? & ? & ? & ?)] | (b' & ? & ? & ?)]; [by left| |].
        -- right. exists a', b'. rewrite elem_of_cons. auto.
        -- right. exists a, b'. rewrite elem_of_cons. auto.
      * intros [? | (a' & b' & [-> | ?]%elem_of_cons & ? & ? & ?)]; [auto| |].
        -- right. eauto.
        -- left. right. eauto 10.
    + intros x. rewrite I2, IH2. split.
      * intros [[? Hx] Hy]. split; [done|].
        intros a' b' [-> | ?]%elem_of_cons ? ?; [by apply Hy|by apply Hx].
      * intros [? Hx]. split; [split; [done|]|].
        -- intros a' b' ? ? ?. apply Hx; [|done|done]. rewrite elem_of_cons. auto.
        -- intros b' ? ?. apply Hx; [|done|done]. rewrite elem_of_cons. auto.
Qed.

(** [new_terms] after the loops: every truthy combination of two terms. *)
Lemma elem_of_new_terms terms c :
  c ∈ (pair_loop terms).1 ↔
  ∃ a b, a ∈ terms ∧ b ∈ terms ∧ combine a b = Some c ∧ c ≠ "".
Proof.
  unfold pair_loop, set_fold. simpl.
  destruct (outer_loop_spec (elements terms) (elements terms) (∅, terms)) as [H _].
  rewrite H. simpl. setoid_rewrite elem_of_elements.
  split; [intros [?%elem_of_empty | ?]; done | by right].
Qed.

(** [unchecked] after the loops: the terms that took part in no truthy
    combination. *)
Lemma elem_of_unchecked terms x :
  x ∈ (pair_loop terms).2 ↔
  x ∈ terms ∧ ∀ a b, a ∈ terms → b ∈ terms →
                     truthy (combine a b) = true → x ≠ a ∧ x ≠ b.
Proof.
  unfold pair_loop, set_fold. simpl.
  destruct (outer_loop_spec (elements terms) (elements terms) (∅, terms)) as [_ H].
  rewrite H. simpl. by setoid_rewrite elem_of_elements.
Qed.

End pair_loop_facts.

(** * The levels of the recursion *)

Section level_facts.

Import Py.

Lemma elem_of_mapM_option {A B} (f : A → option B) l k :
  mapM f l = Some k → ∀ y, y ∈ k ↔ ∃ x, x ∈ l ∧ f x = Some y.
Proof.
  intros H%mapM_Some. induction H as [|x y l k Hxy _ IH]; intros z.
  - split; [by intros ?%elem_of_nil|by intros (? & ?%elem_of_nil & ?)].
  - rewrite elem_of_cons, IH. split.
    + intros [-> | (x' & ? & ?)]; [exists x|exists x']; rewrite elem_of_cons; auto.
    + intros (x' & [-> | ?]%elem_of_cons & ?); [left; congruence|right; eauto].
Qed.

(** The working set of a level: the encodings of the minterms. *)
Lemma encode_terms_Some ms n :
  0 ≤ n →
  ∃ terms, encode_terms ms n = Some terms
           ∧ ∀ p, p ∈ terms ↔ ∃ m, m ∈ ms ∧ format_bin m n = Some p.
Proof.
  intros Hn. unfold encode_terms.
  destruct (mapM (λ m, format_bin m n) (elements ms)) as [l|] eqn:Hl.
  - exists (list_to_set l). split; [done|]. intros p.
    rewrite elem_of_list_to_set, (elem_of_mapM_option _ _ _ Hl).
    by setoid_rewrite elem_of_elements.
  - apply mapM_None, Exists_exists in Hl. destruct Hl as (m & _ & Hm).
    destruct (format_bin_is_Some m n Hn) as [? ?]. congruence.
Qed.

Lemma encode_terms_elem ms n terms p :
  encode_terms ms n = Some terms →
  p ∈ terms ↔ ∃ m, m ∈ ms ∧ format_bin m n = Some p.
Proof.
  unfold encode_terms.
  destruct (mapM (λ m, format_bin m n) (elements ms)) as [l|] eqn:Hl; [|done].
  intros [= <-]. rewrite elem_of_list_to_set, (elem_of_mapM_option _ _ _ Hl).
  by setoid_rewrite elem_of_elements.
Qed.

(** A negative [num_vars] raises as soon as there is a minterm to format. *)
Lemma encode_terms_negative_width ms n :
  n < 0 → ms ≠ ∅ → encode_terms ms n = None.
Proof.
  intros Hn Hms. unfold encode_terms.
  destruct (mapM (λ m, format_bin m n) (elements ms)) as [l|] eqn:Hl; [|done].
  apply mapM_Some in Hl. destruct (elements ms) as [|m ms'] eqn:He.
  - by apply elements_empty_inv, leibniz_equiv in He.
  - inversion Hl as [|? ? ? ? Hm]; subst.
    by rewrite format_bin_negative_width in Hm.
Qed.

Lemma next_minterms_elem new_terms ms' x :
  next_minterms new_terms = Some ms' →
  x ∈ ms' ↔ ∃ t, t ∈ new_terms ∧ int2 (replace_dash t) = Some x.
Proof.
  unfold next_minterms.
  destruct (mapM _ (elements new_terms)) as [l|] eqn:Hl; [|done].
  intros [= <-]. rewrite elem_of_list_to_set, (elem_of_mapM_option _ _ _ Hl).
  by setoid_rewrite elem_of_elements.
Qed.

(** [int] never raises on a combined pattern: after the replacement it is a
    non-empty string of binary digits. *)
Lemma next_minterms_total new_terms :
  (∀ t, t ∈ new_terms → ternary t = true ∧ t ≠ "") →
  is_Some (next_minterms new_terms).
Proof.
  intros H. unfold next_minterms.
  destruct (mapM _ (elements new_terms)) as [l|] eqn:Hl; [by eexists|].
  apply mapM_None, Exists_exists in Hl. destruct Hl as (t & Ht & Hnone).
  apply elem_of_elements, H in Ht as [Ht1 Ht2].
  destruct (int2_binary (replace_dash t)) as [? ?];
    auto using binary_replace_dash, replace_dash_nonempty. congruence.
Qed.

Lemma new_terms_ternary ms n terms t :
  encode_terms ms n = Some terms → t ∈ (pair_loop terms).1 →
  ternary t = true ∧ t ≠ "".
Proof.
  intros Ht (a & b & Ha & _ & [_ ->]%combine_Some & ?)%elem_of_new_terms.
  split; [|done]. apply ternary_merge.
  apply (encode_terms_elem _ _ _ _ Ht) in Ha as (m & _ & Hm).
  by eapply ternary_format_bin.
Qed.

Lemma unchecked_subseteq terms : (pair_loop terms).2 ⊆ terms.
Proof. intros x [? _]%elem_of_unchecked. done. Qed.

(** On a valid input the next level's minterms are minterms of this level,
    each with one more zero than some minterm of this level. *)
Lemma next_minterms_valid ms n terms ms' k :
  1 ≤ n → in_range n ms → zeros_at_least n k ms →
  encode_terms ms n = Some terms →
  next_minterms (pair_loop terms).1 = Some ms' →
  ms' ⊆ ms ∧ zeros_at_least n (S k) ms'.
Proof.
  intros Hn Hr Hk Ht Hms'.
  assert (∀ x, x ∈ ms' → x ∈ ms ∧ ∀ s, format_bin x n = Some s →
                                       (S k ≤ count_zeros s)%nat) as H.
  { intros x (t & Hin & Hx)%(next_minterms_elem _ _ _ Hms').
    apply elem_of_new_terms in Hin
      as (a & b & Ha & Hb & [Hd ->]%combine_Some & _).
    apply (encode_terms_elem _ _ _ _ Ht) in Ha as (ma & Hma & Hfa).
    apply (encode_terms_elem _ _ _ _ Ht) in Hb as (mb & Hmb & Hfb).
    pose proof (Hr _ Hma) as Hra. pose proof (Hr _ Hmb) as Hrb.
    pose proof (format_bin_length _ _ _ Hn Hra Hfa).
    pose proof (format_bin_length _ _ _ Hn Hrb Hfb).
    destruct (merge_binary a b) as [[Hrep Hz] | [Hrep Hz]];
      try (eapply format_bin_binary; [|eassumption]; lia); try congruence;
      rewrite Hrep in Hx.
    - rewrite (format_bin_int2 ma n a) in Hx by (done || lia).
      injection Hx as <-. split; [done|]. intros s Hs.
      assert (s = a) as -> by congruence.
      pose proof (Hk _ _ Hmb Hfb). lia.
    - rewrite (format_bin_int2 mb n b) in Hx by (done || lia).
      injection Hx as <-. split; [done|]. intros s Hs.
      assert (s = b) as -> by congruence.
      pose proof (Hk _ _ Hma Hfa). lia. }
  split; [intros x Hx; by apply H|]. intros x s Hx Hs. by apply (H x).
Qed.

Lemma qm_simplify_S fuel ms n :
  qm_simplify (S fuel) ms n
  = match encode_terms ms n with
    | None => ValueError
    | Some terms =>
        if decide ((pair_loop terms).1 = ∅) then Returned (pair_loop terms).2
        else
          match next_minterms (pair_loop terms).1 with
          | None => ValueError
          | Some ms' =>
              match qm_simplify fuel ms' n with
              | Returned rest => Returned (rest ∪ (pair_loop terms).2)
              | failure => failure
              end
          end
    end.
Proof.
  simpl. destruct (encode_terms ms n) as [terms|]; [|done].
  by destruct (pair_loop terms).
Qed.

End level_facts.

(** * The recursion as a whole *)

Section engine_facts.

Import Py.

Lemma in_range_subseteq n (ms ms' : gset Z) :
  ms' ⊆ ms → in_range n ms → in_range n ms'.
Proof. intros Hsub Hr m Hm. apply Hr, Hsub, Hm. Qed.

(** More fuel does not change what a call returns. *)
Lemma qm_simplify_fuel_mono fuel fuel' ms n r :
  (fuel ≤ fuel')%nat →
  qm_simplify fuel ms n = Returned r → qm_simplify fuel' ms n = Returned r.
Proof.
  revert fuel' ms r. induction fuel as [|fuel IH]; intros fuel' ms r Hle; [done|].
  destruct fuel' as [|fuel']; [lia|]. rewrite !qm_simplify_S.
  destruct (encode_terms ms n) as [terms|]; [|done].
  destruct (decide _); [done|].
  destruct (next_minterms _) as [ms'|]; [|done].
  destruct (qm_simplify fuel ms' n) as [rest| |] eqn:Hrec; try done.
  by rewrite (IH fuel' ms' rest ltac:(lia) Hrec).
Qed.

(** What a call returns does not depend on the fuel it was given. *)
Lemma qm_simplify_fuel_unique fuel fuel' ms n r r' :
  qm_simplify fuel ms n = Returned r →
  qm_simplify fuel' ms n = Returned r' → r' = r.
Proof.
  intros H H'.
  apply (qm_simplify_fuel_mono _ (fuel `max` fuel')%nat) in H; [|lia].
  apply (qm_simplify_fuel_mono _ (fuel `max` fuel')%nat) in H'; [|lia].
  congruence.
Qed.

(** No call with [0 ≤ num_vars] raises, whatever the minterms are. *)
Lemma qm_simplify_no_error fuel ms n :
  0 ≤ n → qm_simplify fuel ms n ≠ ValueError.
Proof.
  intros Hn. revert ms. induction fuel as [|fuel IH]; intros ms; [done|].
  rewrite qm_simplify_S.
  destruct (encode_terms_Some ms n Hn) as (terms & Ht & _). rewrite Ht.
  destruct (decide _); [done|].
  destruct (next_minterms_total (pair_loop terms).1) as [ms' Hms'].
  { intros t. by apply (new_terms_ternary ms n). }
  rewrite Hms'. specialize (IH ms').
  by destruct (qm_simplify fuel ms' n).
Qed.

(** Every returned pattern is the encoding of an input minterm. *)
Lemma qm_simplify_encodings fuel ms n r :
  1 ≤ n → in_range n ms → qm_simplify fuel ms n = Returned r →
  ∀ p, p ∈ r → ∃ m, m ∈ ms ∧ format_bin m n = Some p.
Proof.
  intros Hn. revert ms r. induction fuel as [|fuel IH]; intros ms r Hr; [done|].
  rewrite qm_simplify_S.
  destruct (encode_terms ms n) as [terms|] eqn:Ht; [|done].
  assert (∀ p, p ∈ (pair_loop terms).2 → ∃ m, m ∈ ms ∧ format_bin m n = Some p)
    as Hun.
  { intros p Hp%unchecked_subseteq. by apply (encode_terms_elem _ _ _ _ Ht). }
  destruct (decide _); [intros [= <-]; done|].
  destruct (next_minterms _) as [ms'|] eqn:Hms'; [|done].
  destruct (next_minterms_valid ms n terms ms' O Hn Hr) as [Hsub _];
    [intros ? ? ? ?; lia|done|done|].
  destruct (qm_simplify fuel ms' n) as [rest| |] eqn:Hrec; try done.
  intros [= <-] p [Hp | Hp]%elem_of_union; [|by apply Hun].
  destruct (IH ms' rest (in_range_subseteq _ _ _ Hsub Hr) Hrec p Hp)
    as (m & Hm & ?).
  exists m. split; [by apply Hsub|done].
Qed.

(** If every encoding already holds [k] zeros, [num_vars - k] further levels
    are enough. *)
Lemma qm_simplify_returns_from k fuel ms n :
  1 ≤ n → in_range n ms → zeros_at_least n k ms →
  (Z.to_nat n - k < fuel)%nat →
  ∃ r, qm_simplify fuel ms n = Returned r.
Proof.
  intros Hn. revert k ms.
  induction fuel as [|fuel IH]; intros k ms Hr Hk Hfuel; [lia|].
  rewrite qm_simplify_S.
  destruct (encode_terms_Some ms n ltac:(lia)) as (terms & Ht & _). rewrite Ht.
  destruct (decide _) as [|Hne]; [by eexists|].
  destruct (next_minterms_total (pair_loop terms).1) as [ms' Hms'].
  { intros t. by apply (new_terms_ternary ms n). }
  rewrite Hms'.
  destruct (next_minterms_valid ms n terms ms' k Hn Hr Hk Ht Hms') as [Hsub Hk'].
  destruct (IH (S k) ms') as [rest ->];
    [by eapply in_range_subseteq|done| |by eexists].
  apply set_choose_L in Hne as [t Hin].
  destruct (new_terms_ternary ms n terms t Ht Hin) as [Ht1 Ht2].
  destruct (int2_binary (replace_dash t)) as [x Hx];
    auto using binary_replace_dash, replace_dash_nonempty.
  assert (x ∈ ms') as Hx'.
  { apply (next_minterms_elem _ _ _ Hms'). eauto. }
  destruct (format_bin_is_Some x n ltac:(lia)) as [s Hs].
  pose proof (Hk' x s Hx' Hs).
  pose proof (format_bin_length x n s Hn (Hr x (Hsub x Hx')) Hs).
  pose proof (count_zeros_le s). lia.
Qed.

(** On a valid input [num_vars + 1] calls are enough, and every larger
    budget returns the same set. *)
Lemma qm_simplify_returns ms n :
  1 ≤ n → in_range n ms →
  ∃ r, ∀ fuel, (S (Z.to_nat n) ≤ fuel)%nat → qm_simplify fuel ms n = Returned r.
Proof.
  intros Hn Hr.
  destruct (qm_simplify_returns_from O (S (Z.to_nat n)) ms n) as [r Hret];
    [done|done|intros ? ? ? ?; lia|lia|].
  exists r. intros fuel Hfuel. by apply (qm_simplify_fuel_mono (S (Z.to_nat n))).
Qed.

(** Both together: the call returns, and what it returns are encodings of
    input minterms. *)
Lemma qm_simplify_returns_encodings ms n :
  1 ≤ n → in_range n ms →
  ∃ r, (∀ fuel, (S (Z.to_nat n) ≤ fuel)%nat → qm_simplify fuel ms n = Returned r)
       ∧ ∀ p, p ∈ r → ∃ m, m ∈ ms ∧ 0 ≤ m < 2 ^ n ∧ format_bin m n = Some p.
Proof.
  intros Hn Hr. destruct (qm_simplify_returns ms n Hn Hr) as [r Hret].
  exists r. split; [done|]. intros p Hp.
  destruct (qm_simplify_encodings _ ms n r Hn Hr (Hret _ (le_n _)) p Hp)
    as (m & Hm & Hf).
  exists m. split; [done|]. split; [by apply Hr|done].
Qed.

End engine_facts.

(** * Coverage by a string of digits *)

Section covers_facts.

Import Py.

Lemma agrees_binary p e : binary p = true → agrees p e = true ↔ p = e.
Proof.
  revert e. induction p as [|c p IH]; intros [|d e]; simpl; try done.
  intros [Hc Hp]%andb_true_iff. rewrite andb_true_iff, (IH e Hp).
  assert (Ascii.eqb c "-" = false) as ->
      by (by destruct (binary_char_cases c Hc) as [-> | ->]).
  simpl. destruct (Ascii.eqb_spec c d); split; try done.
  - intros [_ ->]. by subst.
  - by intros [= -> ->].
  - by intros [? _].
  - intros [= ? ?]. done.
Qed.

(** A pattern without ['-'] covers the one index it encodes. *)
Lemma covers_binary p m n :
  0 ≤ m → format_bin m n = Some p → ∀ k, covers p k n = true ↔ k = m.
Proof.
  intros Hm Hp k. unfold covers.
  pose proof (format_bin_binary _ _ _ Hm Hp) as Hb. split.
  - destruct (format_bin k n) as [e|] eqn:He; [|done].
    intros ->%(agrees_binary _ _ Hb). by eapply format_bin_inj.
  - intros ->. rewrite Hp. by apply agrees_binary.
Qed.

End covers_facts.

(** * The renderer *)

Section renderer_facts.

Import Spec.

(** The loop appends, in order, what each position emits. *)
Lemma bits_loop_literals p vars terms :
  bits_loop (pattern_string p) vars terms
  = (terms ++ omap id (zip_with literal p vars))%list.
Proof.
  revert vars terms.
  induction p as [|t p IH]; intros [|v vars] terms; simpl;
    rewrite ?app_nil_r; try done.
  destruct t; simpl; rewrite IH; by rewrite <- ?app_assoc.
Qed.

(** With a name for every position, nothing survives exactly when the
    pattern is ['-'] throughout. *)
Lemma no_literal_iff_all_dash p (vars : list string) :
  length p = length vars →
  omap id (zip_with literal p vars) = [] ↔ forallb is_dash p = true.
Proof.
  revert vars. induction p as [|t p IH]; intros [|v vars] Hl; simpl in *;
    try done.
  destruct t; simpl; try done. apply IH. lia.
Qed.

End renderer_facts.

(** * The claims *)

(** C3.  On a valid input ([1 ≤ num_vars], minterms in [[0, 2^num_vars)])
    [qm_simplify] returns, and every pattern it returns holds no ['-']: it
    is a string of exactly [num_vars] binary digits whose value [int(p, 2)]
    is an input minterm, and the only assignment index it covers is that
    minterm. *)
Theorem returned_patterns_are_minterm_encodings (ms : gset Z) (n : Z) :
  1 ≤ n → in_range n ms →
  ∃ r, (∀ fuel, (S (Z.to_nat n) ≤ fuel)%nat → qm_simplify fuel ms n = Returned r)
       ∧ ∀ p, p ∈ r →
              binary p = true
              ∧ String.length p = Z.to_nat n
              ∧ ∃ m, m ∈ ms ∧ Py.int2 p = Some m
                     ∧ ∀ k, covers p k n = true ↔ k = m.
Proof.
  intros Hn Hr.
  destruct (qm_simplify_returns_encodings ms n Hn Hr) as (r & Hret & Henc).
  exists r. split; [done|]. intros p Hp.
  destruct (Henc p Hp) as (m & Hm & Hrange & Hf).
  split; [eapply format_bin_binary; [|done]; lia|].
  split; [by eapply format_bin_length|].
  exists m. split; [done|]. split; [apply (format_bin_int2 m n); [lia|done]|].
  apply covers_binary; [lia|done].
Qed.

(** C4.  Soundness: on a valid input, with the don't-care indices in range
    and disjoint from the minterms, no returned pattern covers an index
    outside [minterms ∪ dontcares].  This holds for the call [main] makes
    (on the minterms alone) and also when the don't-cares are seeded into
    the working set. *)
Theorem returned_patterns_are_sound (ms dontcares : gset Z) (n : Z) :
  1 ≤ n → in_range n ms → in_range n dontcares → ms ## dontcares →
  (∃ r, (∀ fuel, (S (Z.to_nat n) ≤ fuel)%nat →
                 qm_simplify fuel ms n = Returned r)
        ∧ ∀ p k, p ∈ r → covers p k n = true → k ∈ ms ∪ dontcares)
  ∧ (∃ r, (∀ fuel, (S (Z.to_nat n) ≤ fuel)%nat →
                   qm_simplify fuel (ms ∪ dontcares) n = Returned r)
          ∧ ∀ p k, p ∈ r → covers p k n = true → k ∈ ms ∪ dontcares).
Proof.
  intros Hn Hr Hd _.
  assert (in_range n (ms ∪ dontcares)) as Hu.
  { intros m [?|?]%elem_of_union; [by apply Hr|by apply Hd]. }
  split.
  - destruct (qm_simplify_returns_encodings ms n Hn Hr) as (r & Hret & Henc).
    exists r. split; [done|]. intros p k Hp Hk.
    destruct (Henc p Hp) as (m & Hm & Hrange & Hf).
    apply (covers_binary p m n) in Hk as ->; [|lia|done].
    apply elem_of_union. by left.
  - destruct (qm_simplify_returns_encodings _ n Hn Hu) as (r & Hret & Henc).
    exists r. split; [done|]. intros p k Hp Hk.
    destruct (Henc p Hp) as (m & Hm & Hrange & Hf).
    by apply (covers_binary p m n) in Hk as ->; [|lia|done].
Qed.

(** C10.  On a valid input every returned pattern is a string of exactly
    [num_vars] characters over the alphabet of patterns. *)
Theorem returned_patterns_have_width (ms : gset Z) (n : Z) :
  1 ≤ n → in_range n ms →
  ∃ r, (∀ fuel, (S (Z.to_nat n) ≤ fuel)%nat → qm_simplify fuel ms n = Returned r)
       ∧ ∀ p, p ∈ r → String.length p = Z.to_nat n ∧ ternary p = true.
Proof.
  intros Hn Hr.
  destruct (qm_simplify_returns_encodings ms n Hn Hr) as (r & Hret & Henc).
  exists r. split; [done|]. intros p Hp.
  destruct (Henc p Hp) as (m & Hm & Hrange & Hf).
  split; [by eapply format_bin_length|by eapply ternary_format_bin].
Qed.

(** C6.  On a valid input the recursion reaches its base case: a call whose
    level produces no combined pattern returns at once, without a recursive
    call, and [num_vars + 1] nested calls (at most [num_vars] combining
    levels) are always enough; a larger budget returns the same set. *)
Theorem recursion_reaches_base_case (ms : gset Z) (n : Z) :
  1 ≤ n → in_range n ms →
  (∀ fuel terms,
      encode_terms ms n = Some terms → (pair_loop terms).1 = ∅ →
      qm_simplify (S fuel) ms n = Returned (pair_loop terms).2)
  ∧ ∃ r, ∀ fuel, (S (Z.to_nat n) ≤ fuel)%nat →
                 qm_simplify fuel ms n = Returned r.
Proof.
  intros Hn Hr. split; [|by apply qm_simplify_returns].
  intros fuel terms Ht He. rewrite qm_simplify_S, Ht.
  by destruct (decide _).
Qed.

(** C1.  Coverage fails on the valid input [n = 2], [minterms = {1, 3}]: the
    call returns the single pattern ["01"], which does not cover minterm
    [3]. *)
Theorem coverage_fails_on_1_3 :
  in_range 2 {[1; 3]}
  ∧ 3 ∈ ({[1; 3]} : gset Z)
  ∧ qm_simplify 3 {[1; 3]} 2 = Returned {["01"]}
  ∧ covers "01" 3 2 = false
  ∧ covers "01" 1 2 = true.
Proof.
  split; [|split; [|split; [|split]]].
  - intros m [->%elem_of_singleton | ->%elem_of_singleton]%elem_of_union; lia.
  - apply elem_of_union. right. by apply elem_of_singleton.
  - vm_compute. reflexivity.
  - reflexivity.
  - reflexivity.
Qed.

(** C2.  For [n = 2] the call on [{0, 1, 2, 3}] returns the pattern ["00"]
    and not ["--"], and the call on [{1, 3}] returns ["01"] and not ["-1"];
    for the variables [A, B] these render as ["!A.!B"] and ["!A.B"], while
    ["-1"] would render as ["B"]. *)
Theorem concrete_scenarios_n2 :
  qm_simplify 3 {[0; 1; 2; 3]} 2 = Returned {["00"]}
  ∧ qm_simplify 3 {[1; 3]} 2 = Returned {["01"]}
  ∧ bits_to_expr "00" ["A"; "B"] = "!A.!B"
  ∧ bits_to_expr "01" ["A"; "B"] = "!A.B"
  ∧ bits_to_expr "-1" ["A"; "B"] = "B"
  ∧ bits_to_expr "--" ["A"; "B"] = "1".
Proof. repeat split; vm_compute; reflexivity. Qed.

(** C5, as the code has it.  For two patterns of the same length: if they
    differ in exactly one position, whatever the two characters there are,
    [combine] produces the pattern with that position replaced by ['-'] and
    every other position copied unchanged; if they differ in more than one
    position it produces nothing. *)
Theorem combine_one_difference (a b : string) :
  String.length a = String.length b →
  (∀ i, differ_at a b i →
        (∀ j, j ≠ i → String.get j a = String.get j b) →
        ∃ c, combine a b = Some c
             ∧ String.length c = String.length a
             ∧ String.get i c = Some "-"%char
             ∧ ∀ j, j ≠ i → String.get j c = String.get j a)
  ∧ (∀ i j, i ≠ j → differ_at a b i → differ_at a b j → combine a b = None).
Proof.
  intros Hl. split.
  - intros i Hi Hj. destruct (differ_once a b i Hl Hi Hj) as (Hd & Hg & Ho).
    exists (merge a b). split; [by apply combine_Some|].
    split; [by apply length_merge|done].
  - intros i j Hij Hi Hj. pose proof (differ_twice a b i j Hl Hij Hi Hj) as Hd.
    rewrite combine_spec. destruct (Nat.eqb_spec (hamming a b) 1); [lia|done].
Qed.

(** C7.  [main] never reads the [--dontcare] option: whatever it holds, the
    engine is called on the minterms alone.  For three variables, the only
    minterm [1] and [--dontcare 3], the result is ["001"]; the pattern
    ["0-1"] that [combine] builds from ["001"] and ["011"] is never formed,
    because ["011"] is never in the working set. *)
Theorem dontcare_option_is_ignored :
  let args := {| expr := Some "!A.!B.C"; dontcare := Some "3";
                 kmap := false; example := false |} in
  (∀ fuel args' column_F vars_sorted,
      main_simplified fuel args' column_F vars_sorted
      = qm_simplify fuel (main_minterms column_F)
                    (Z.of_nat (length vars_sorted)))
  ∧ main_minterms [0; 1; 0; 0; 0; 0; 0; 0] = {[1]}
  ∧ main_simplified 4 args [0; 1; 0; 0; 0; 0; 0; 0] ["A"; "B"; "C"]
    = Returned {["001"]}
  ∧ encode_terms {[1]} 3 = Some {["001"]}
  ∧ combine "001" "011" = Some "0-1"
  ∧ qm_simplify 4 {[1; 3]} 3 = Returned {["001"]}.
Proof. repeat split; vm_compute; reflexivity. Qed.

(** C9, as the code has it.  The engine validates nothing: with
    [0 ≤ num_vars] no call raises, whatever the minterms are, and a single
    minterm, inside [[0, 2^num_vars)] or not, comes back as the one pattern
    [format] gives it. *)
Theorem no_argument_validation (fuel : nat) (ms : gset Z) (n : Z) :
  0 ≤ n →
  qm_simplify fuel ms n ≠ ValueError
  ∧ ∀ m, ∃ s, Py.format_bin m n = Some s
              ∧ qm_simplify (S fuel) {[m]} n = Returned {[s]}.
Proof.
  intros Hn. split; [by apply qm_simplify_no_error|]. intros m.
  destruct (format_bin_is_Some m n Hn) as [s Hs].
  exists s. split; [done|]. rewrite qm_simplify_S.
  assert (encode_terms {[m]} n = Some {[s]}) as ->.
  { unfold encode_terms. rewrite elements_singleton. simpl. rewrite Hs. simpl.
    f_equal. apply (right_id_L ∅ (∪)). }
  assert ((pair_loop {[s]}).1 = ∅) as Hnew.
  { apply leibniz_equiv. intros c. rewrite elem_of_new_terms. split.
    - intros (a & b & ->%elem_of_singleton & ->%elem_of_singleton & Hc & _).
      by rewrite combine_self in Hc.
    - by intros ?%elem_of_empty. }
  rewrite Hnew. destruct (decide _); [|done]. f_equal.
  apply leibniz_equiv. intros x. rewrite elem_of_unchecked. split; [tauto|].
  intros Hx. split; [done|].
  intros a b ->%elem_of_singleton ->%elem_of_singleton.
  by rewrite combine_self.
Qed.

(** A negative [num_vars] is the one argument that raises, and only when
    there is a minterm to format. *)
Lemma qm_simplify_negative_width fuel ms n :
  n < 0 → ms ≠ ∅ → qm_simplify (S fuel) ms n = ValueError.
Proof.
  intros Hn Hms. rewrite qm_simplify_S. by rewrite encode_terms_negative_width.
Qed.

(** C8.  For a pattern over [{0, 1, -}] and as many variable names as it
    has positions, [bits_to_expr] is the renderer of the specification: the
    variable for ['1'], ['!'] and the variable for ['0'], nothing for ['-'],
    the surviving literals joined by ['.'], and ["1"] for a pattern of ['-']
    only. *)
Theorem bits_to_expr_renders (p : list Spec.tern) (vars : list string) :
  length p = length vars →
  bits_to_expr (Spec.pattern_string p) vars = Spec.render p vars.
Proof.
  intros Hl. unfold bits_to_expr, Spec.render.
  rewrite bits_loop_literals. simpl.
  pose proof (no_literal_iff_all_dash p vars Hl) as Hdash.
  destruct (omap id (zip_with Spec.literal p vars)) as [|lit lits].
  - by rewrite (proj1 Hdash).
  - destruct (forallb Spec.is_dash p); [|done].
    destruct Hdash as [_ Hnil]. by specialize (Hnil eq_refl).
Qed.

(** * Concrete inputs *)

Lemma in_range_singleton n m : 0 ≤ m < 2 ^ n → in_range n {[m]}.
Proof. by intros H k ->%elem_of_singleton. Qed.

Lemma in_range_union n (X Y : gset Z) :
  in_range n X → in_range n Y → in_range n (X ∪ Y).
Proof. intros HX HY m [?|?]%elem_of_union; [by apply HX|by apply HY]. Qed.

(** C5, as the specification has it, fails: ["-1"] and ["01"] differ only in
    the first position, where just one of them holds ['-'], and [combine]
    still produces a pattern. *)
Lemma combine_lone_dash_counterexample :
  String.length "-1" = String.length "01"
  ∧ ternary "-1" = true ∧ ternary "01" = true
  ∧ String.get 0 "-1" = Some "-"%char
  ∧ String.get 0 "01" = Some "0"%char
  ∧ String.get 1 "-1" = String.get 1 "01"
  ∧ combine "-1" "01" = Some "-1".
Proof. repeat split; reflexivity. Qed.

(** C9, as the specification has it, fails: an index outside [[0, 2^n)] and
    [n = 0] are both accepted, and a result is returned. *)
Lemma validation_counterexample :
  ¬ in_range 2 {[5]}
  ∧ qm_simplify 1 {[5]} 2 = Returned {["101"]}
  ∧ qm_simplify 1 {[0]} 0 = Returned {["0"]}.
Proof.
  split; [|split; vm_compute; reflexivity].
  intros H. specialize (H 5 (proj2 (elem_of_singleton 5 5) eq_refl)).
  change (2 ^ 2) with 4 in H. lia.
Qed.

Lemma returned_patterns_are_minterm_encodings_witness :
  1 ≤ 2 ∧ in_range 2 {[1; 3]}
  ∧ ∃ r, (∀ fuel, (S (Z.to_nat 2) ≤ fuel)%nat →
                  qm_simplify fuel {[1; 3]} 2 = Returned r)
         ∧ ∀ p, p ∈ r →
                binary p = true
                ∧ String.length p = Z.to_nat 2
                ∧ ∃ m, m ∈ ({[1; 3]} : gset Z) ∧ Py.int2 p = Some m
                       ∧ ∀ k, covers p k 2 = true ↔ k = m.
Proof.
  assert (1 ≤ 2) as H1 by lia.
  assert (in_range 2 {[1; 3]}) as H2
      by (apply in_range_union; apply in_range_singleton; lia).
  split; [exact H1|]. split; [exact H2|].
  exact (returned_patterns_are_minterm_encodings {[1; 3]} 2 H1 H2).
Defined.

Lemma returned_patterns_are_sound_witness :
  1 ≤ 3 ∧ in_range 3 {[1]} ∧ in_range 3 {[3]}
  ∧ ({[1]} : gset Z) ## {[3]}
  ∧ (∃ r, (∀ fuel, (S (Z.to_nat 3) ≤ fuel)%nat →
                   qm_simplify fuel {[1]} 3 = Returned r)
          ∧ ∀ p k, p ∈ r → covers p k 3 = true → k ∈ ({[1]} : gset Z) ∪ {[3]})
  ∧ (∃ r, (∀ fuel, (S (Z.to_nat 3) ≤ fuel)%nat →
                   qm_simplify fuel ({[1]} ∪ {[3]}) 3 = Returned r)
          ∧ ∀ p k, p ∈ r → covers p k 3 = true → k ∈ ({[1]} : gset Z) ∪ {[3]}).
Proof.
  assert (1 ≤ 3) as H1 by lia.
  assert (in_range 3 {[1]}) as H2 by (apply in_range_singleton; lia).
  assert (in_range 3 {[3]}) as H3 by (apply in_range_singleton; lia).
  assert (({[1]} : gset Z) ## {[3]}) as H4.
  { apply disjoint_singleton_l, not_elem_of_singleton. lia. }
  split; [exact H1|]. split; [exact H2|]. split; [exact H3|]. split; [exact H4|].
  exact (returned_patterns_are_sound {[1]} {[3]} 3 H1 H2 H3 H4).
Defined.

Lemma returned_patterns_have_width_witness :
  1 ≤ 3 ∧ in_range 3 {[0; 2; 4; 6]}
  ∧ ∃ r, (∀ fuel, (S (Z.to_nat 3) ≤ fuel)%nat →
                  qm_simplify fuel {[0; 2; 4; 6]} 3 = Returned r)
         ∧ ∀ p, p ∈ r → String.length p = Z.to_nat 3 ∧ ternary p = true.
Proof.
  assert (1 ≤ 3) as H1 by lia.
  assert (in_range 3 {[0; 2; 4; 6]}) as H2
      by (repeat apply in_range_union; apply in_range_singleton; lia).
  split; [exact H1|]. split; [exact H2|].
  exact (returned_patterns_have_width {[0; 2; 4; 6]} 3 H1 H2).
Defined.

Lemma recursion_reaches_base_case_witness :
  1 ≤ 2 ∧ in_range 2 {[0; 1; 2; 3]}
  ∧ (∀ fuel terms,
        encode_terms {[0; 1; 2; 3]} 2 = Some terms → (pair_loop terms).1 = ∅ →
        qm_simplify (S fuel) {[0; 1; 2; 3]} 2 = Returned (pair_loop terms).2)
  ∧ ∃ r, ∀ fuel, (S (Z.to_nat 2) ≤ fuel)%nat →
                 qm_simplify fuel {[0; 1; 2; 3]} 2 = Returned r.
Proof.
  assert (1 ≤ 2) as H1 by lia.
  assert (in_range 2 {[0; 1; 2; 3]}) as H2
      by (repeat apply in_range_union; apply in_range_singleton; lia).
  split; [exact H1|]. split; [exact H2|].
  exact (recursion_reaches_base_case {[0; 1; 2; 3]} 2 H1 H2).
Defined.

Lemma combine_one_difference_witness :
  String.length "01" = String.length "11"
  ∧ (∀ i, differ_at "01" "11" i →
          (∀ j, j ≠ i → String.get j "01" = String.get j "11") →
          ∃ c, combine "01" "11" = Some c
               ∧ String.length c = String.length "01"
               ∧ String.get i c = Some "-"%char
               ∧ ∀ j, j ≠ i → String.get j c = String.get j "01")
  ∧ (∀ i j, i ≠ j → differ_at "01" "11" i → differ_at "01" "11" j →
            combine "01" "11" = None).
Proof.
  split; [reflexivity|].
  exact (combine_one_difference "01" "11" eq_refl).
Defined.

Lemma bits_to_expr_renders_witness :
  length [Spec.Dash; Spec.One] = length ["A"; "B"]
  ∧ bits_to_expr (Spec.pattern_string [Spec.Dash; Spec.One]) ["A"; "B"]
    = Spec.render [Spec.Dash; Spec.One] ["A"; "B"].
Proof.
  split; [reflexivity|].
  exact (bits_to_expr_renders [Spec.Dash; Spec.One] ["A"; "B"] eq_refl).
Defined.

Lemma no_argument_validation_witness :
  0 ≤ 2
  ∧ qm_simplify 1 {[5]} 2 ≠ ValueError
  ∧ ∀ m, ∃ s, Py.format_bin m 2 = Some s
              ∧ qm_simplify 2 {[m]} 2 = Returned {[s]}.
Proof.
  assert (0 ≤ 2) as H1 by lia.
  split; [exact H1|].
  exact (no_argument_validation 1 {[5]} 2 H1).
Defined.

(** * More about [combine] and the pair loop *)

Section combine_more.

Import Py.

Lemma hamming_comm a b : hamming a b = hamming b a.
Proof.
  revert b. induction a as [|x a IH]; intros [|y b]; simpl; try done.
  by rewrite IH, (Ascii.eqb_sym x y).
Qed.

Lemma merge_comm a b : merge a b = merge b a.
Proof.
  revert b. induction a as [|x a IH]; intros [|y b]; simpl; try done.
  rewrite IH, (Ascii.eqb_sym x y). by destruct (Ascii.eqb_spec y x) as [->|].
Qed.

Lemma combine_swap a b : combine a b = combine b a.
Proof. by rewrite !combine_spec, hamming_comm, merge_comm. Qed.

(** X1.  [combine] does not depend on the order of its two arguments. *)
Theorem combine_comm (a b : string) : combine a b = combine b a.
Proof. apply combine_swap. Qed.

Lemma merge_nonempty a b : hamming a b ≠ O → merge a b ≠ "".
Proof. by destruct a, b. Qed.

Lemma combine_not_empty a b : combine a b ≠ Some "".
Proof.
  intros [Hd Hm]%combine_Some. symmetry in Hm. revert Hm.
  apply merge_nonempty. lia.
Qed.

Lemma truthy_combine a b : truthy (combine a b) = true ↔ combine a b ≠ None.
Proof.
  pose proof (combine_not_empty a b). by destruct (combine a b) as [[|c s]|].
Qed.

(** X2.  [combine] never returns the empty string: the truthiness test on
    its value only tells [None] from a pattern. *)
Theorem combine_truthy (a b : string) :
  combine a b ≠ Some "" ∧ (truthy (combine a b) = true ↔ combine a b ≠ None).
Proof. split; [apply combine_not_empty|apply truthy_combine]. Qed.

Lemma agrees_merge a b e :
  binary a = true → binary b = true → binary e = true →
  String.length a = String.length b → hamming a b = 1%nat →
  agrees (merge a b) e = true ↔ e = a ∨ e = b.
Proof.
  revert b e. induction a as [|x a IH]; intros [|y b] [|z e]; simpl; try done.
  - intros _ _ _ _ _. split; [done|]. by intros [?|?].
  - intros [Hx Ha]%andb_true_iff [Hy Hb]%andb_true_iff [Hz He]%andb_true_iff
      Hl Hd.
    rewrite andb_true_iff. destruct (Ascii.eqb_spec x y) as [->|Hxy].
    + assert (Ascii.eqb y "-" = false) as ->
          by (by destruct (binary_char_cases y Hy) as [-> | ->]).
      simpl. rewrite (IH b e) by (done || lia).
      destruct (Ascii.eqb_spec y z) as [->|Hyz].
      * split; [intros [_ [->| ->]]; auto|].
        intros [[= ->] | [= ->]]; auto.
      * split; [by intros [? _]|]. intros [[= ? ?] | [= ? ?]]; done.
    + assert (a = b) as <- by (apply hamming_0_eq; lia).
      rewrite Ascii.eqb_refl, merge_self. simpl.
      rewrite (agrees_binary a e Ha). split.
      * intros [_ ->].
        destruct (binary_char_cases x Hx) as [-> | ->],
          (binary_char_cases y Hy) as [-> | ->],
          (binary_char_cases z Hz) as [-> | ->]; auto; done.
      * intros [[= -> ->] | [= -> ->]]; done.
Qed.

(** X3.  The pattern that [combine] builds from two strings of binary
    digits agrees with exactly those two strings, among the strings of
    binary digits. *)
Theorem combine_agrees_with_parents (a b c e : string) :
  binary a = true → binary b = true → binary e = true →
  String.length a = String.length b → combine a b = Some c →
  agrees c e = true ↔ e = a ∨ e = b.
Proof.
  intros Ha Hb He Hl [Hd ->]%combine_Some. by apply agrees_merge.
Qed.

(** X4.  The state after the two loops does not depend on the order in
    which the elements of [terms] are visited, nor on how often. *)
Theorem pair_loop_any_order (terms : gset string) (la lb : list string) :
  (∀ x, x ∈ la ↔ x ∈ terms) → (∀ x, x ∈ lb ↔ x ∈ terms) →
  foldr (λ a st, foldr (pair_step a) st lb) (∅, terms) la = pair_loop terms.
Proof.
  intros Hla Hlb.
  destruct (outer_loop_spec la lb (∅, terms)) as [H1 H2]. simpl in H1, H2.
  destruct (foldr _ _ la) as [new_terms unchecked] eqn:Hfold.
  destruct (pair_loop terms) as [new_terms' unchecked'] eqn:Hloop.
  simpl in H1, H2. f_equal; apply leibniz_equiv; intros x.
  - rewrite H1. replace new_terms' with (pair_loop terms).1 by by rewrite Hloop.
    rewrite elem_of_new_terms. setoid_rewrite Hla. setoid_rewrite Hlb.
    split; [intros [?%elem_of_empty | ?]; done | by right].
  - rewrite H2. replace unchecked' with (pair_loop terms).2 by by rewrite Hloop.
    rewrite elem_of_unchecked. setoid_rewrite Hla. by setoid_rewrite Hlb.
Qed.

Lemma new_terms_spec terms c :
  c ∈ (pair_loop terms).1 ↔
  ∃ a b, a ∈ terms ∧ b ∈ terms ∧ combine a b = Some c.
Proof.
  rewrite elem_of_new_terms. split.
  - intros (a & b & ? & ? & ? & _). eauto.
  - intros (a & b & ? & ? & Hc). exists a, b. repeat split; try done.
    intros ->. by destruct (combine_not_empty a b).
Qed.

Lemma unchecked_spec terms x :
  x ∈ (pair_loop terms).2 ↔
  x ∈ terms ∧ ∀ y, y ∈ terms → combine x y = None.
Proof.
  rewrite elem_of_unchecked. split.
  - intros [Hx H]. split; [done|]. intros y Hy.
    destruct (combine x y) as [c|] eqn:Hc; [|done].
    destruct (H x y Hx Hy) as [? _]; [|done].
    apply truthy_combine. by rewrite Hc.
  - intros [Hx H]. split; [done|]. intros a b Ha Hb Ht.
    apply truthy_combine in Ht. split; intros ->.
    + by rewrite H in Ht.
    + by rewrite combine_swap, H in Ht.
Qed.

(** X5.  After the loops [new_terms] holds exactly the patterns combined
    from two terms, and [unchecked] exactly the terms that combine with no
    term. *)
Theorem pair_loop_postcondition (terms : gset string) :
  (∀ c, c ∈ (pair_loop terms).1 ↔
        ∃ a b, a ∈ terms ∧ b ∈ terms ∧ combine a b = Some c)
  ∧ (∀ x, x ∈ (pair_loop terms).2 ↔
          x ∈ terms ∧ ∀ y, y ∈ terms → combine x y = None).
Proof. split; intros ?; [apply new_terms_spec|apply unchecked_spec]. Qed.

End combine_more.

(** * Which minterms the recursion keeps *)

Section kept_minterms.

Import Py.

(** The value of a string of binary digits, read with an accumulator. *)
Lemma int2_digits_value s :
  binary s = true →
  ∃ v, 0 ≤ v < 2 ^ Z.of_nat (String.length s)
       ∧ ∀ acc, int2_digits s acc
                = Some (acc * 2 ^ Z.of_nat (String.length s) + v).
Proof.
  induction s as [|c s IH]; simpl String.length.
  - intros _. exists 0. split; [simpl; lia|]. intros acc. simpl. f_equal. lia.
  - intros [Hc Hs]%andb_true_iff. destruct (IH Hs) as (v & Hv & Hacc).
    rewrite Nat2Z.inj_succ, Z.pow_succ_r by lia.
    destruct (binary_char_cases c Hc) as [-> | ->]; simpl.
    + exists v. split; [lia|]. intros acc. rewrite Hacc. f_equal. lia.
    + exists (2 ^ Z.of_nat (String.length s) + v). split; [lia|].
      intros acc. rewrite Hacc. f_equal. lia.
Qed.

(** Of two strings of binary digits at distance one, the one with the extra
    zero has the smaller value. *)
Lemma more_zeros_smaller a b va vb :
  binary a = true → binary b = true →
  String.length a = String.length b → hamming a b = 1%nat →
  count_zeros a = S (count_zeros b) →
  int2_digits a 0 = Some va → int2_digits b 0 = Some vb → va < vb.
Proof.
  revert b va vb. induction a as [|x a IH]; intros [|y b] va vb; simpl; try done.
  intros [Hx Ha]%andb_true_iff [Hy Hb]%andb_true_iff Hl Hd Hz.
  injection Hl as Hl.
  destruct (int2_digits_value a Ha) as (wa & Hwa & Haacc).
  destruct (int2_digits_value b Hb) as (wb & Hwb & Hbacc).
  rewrite <- Hl in Hwb, Hbacc.
  pose proof (Haacc 0) as Ha0. pose proof (Hbacc 0) as Hb0.
  rewrite Z.mul_0_l, Z.add_0_l in Ha0, Hb0.
  destruct (Ascii.eqb_spec x y) as [->|Hxy].
  - assert (wa < wb) as Hlt.
    { apply (IH b); try done. destruct (Ascii.eqb y "0"); lia. }
    destruct (binary_char_cases y Hy) as [-> | ->]; simpl;
      rewrite Haacc, Hbacc; intros [= <-] [= <-]; lia.
  - assert (a = b) as <- by (apply hamming_0_eq; lia).
    assert (wb = wa) as -> by congruence.
    destruct (binary_char_cases x Hx) as [-> | ->],
      (binary_char_cases y Hy) as [-> | ->]; simpl in *; try done; try lia.
    rewrite !Haacc. intros [= <-] [= <-]. lia.
Qed.

(** What the recursive call receives for a combined pair: the smaller of
    the two indices. *)
Lemma combine_reencoded n x y a b c :
  1 ≤ n → 0 ≤ x < 2 ^ n → 0 ≤ y < 2 ^ n →
  format_bin x n = Some a → format_bin y n = Some b →
  combine a b = Some c →
  x ≠ y ∧ int2 (replace_dash c) = Some (x `min` y).
Proof.
  intros Hn Hx Hy Ha Hb [Hd ->]%combine_Some.
  pose proof (format_bin_length _ _ _ Hn Hx Ha) as Hla.
  pose proof (format_bin_length _ _ _ Hn Hy Hb) as Hlb.
  pose proof (format_bin_binary x n a ltac:(lia) Ha) as Hba.
  pose proof (format_bin_binary y n b ltac:(lia) Hb) as Hbb.
  pose proof (format_bin_int2_digits x n a ltac:(lia) Ha) as Hva.
  pose proof (format_bin_int2_digits y n b ltac:(lia) Hb) as Hvb.
  destruct (merge_binary a b) as [[-> Hz] | [-> Hz]]; try done; try congruence.
  - pose proof (more_zeros_smaller a b x y Hba Hbb ltac:(congruence) Hd Hz Hva Hvb).
    split; [lia|]. rewrite (format_bin_int2 x n a) by (done || lia).
    f_equal. lia.
  - rewrite hamming_comm in Hd.
    pose proof (more_zeros_smaller b a y x Hbb Hba ltac:(congruence) Hd Hz Hvb Hva).
    split; [lia|]. rewrite (format_bin_int2 y n b) by (done || lia).
    f_equal. lia.
Qed.

Lemma adjacent_sym n x y : adjacent n x y → adjacent n y x.
Proof.
  intros (a & b & ? & ? & ?). exists b, a. by rewrite combine_swap.
Qed.

(** The minterms of the next level: those of this level that have a larger
    adjacent minterm. *)
Lemma next_minterms_smaller ms n terms ms' x :
  1 ≤ n → in_range n ms →
  encode_terms ms n = Some terms →
  next_minterms (pair_loop terms).1 = Some ms' →
  x ∈ ms' ↔ x ∈ ms ∧ ∃ y, y ∈ ms ∧ x < y ∧ adjacent n x y.
Proof.
  intros Hn Hr Ht Hms'. rewrite (next_minterms_elem _ _ _ Hms'). split.
  - intros (c & (a & b & Ha & Hb & Hc)%new_terms_spec & Hx).
    apply (encode_terms_elem _ _ _ _ Ht) in Ha as (ma & Hma & Hfa).
    apply (encode_terms_elem _ _ _ _ Ht) in Hb as (mb & Hmb & Hfb).
    destruct (combine_reencoded n ma mb a b c Hn (Hr _ Hma) (Hr _ Hmb) Hfa Hfb Hc)
      as [Hne Hmin].
    rewrite Hmin in Hx. injection Hx as <-.
    destruct (Z.min_spec ma mb) as [[? ->] | [? ->]].
    + split; [done|]. exists mb. split; [done|]. split; [lia|].
      exists a, b. by rewrite Hc.
    + split; [done|]. exists ma. split; [done|]. split; [lia|].
      exists b, a. rewrite combine_swap. by rewrite Hc.
  - intros (Hx & y & Hy & Hlt & a & b & Ha & Hb & [c Hc]).
    exists c. split.
    + apply new_terms_spec. exists a, b.
      split; [apply (encode_terms_elem _ _ _ _ Ht); eauto|].
      split; [apply (encode_terms_elem _ _ _ _ Ht); eauto|done].
    + destruct (combine_reencoded n x y a b c Hn (Hr _ Hx) (Hr _ Hy) Ha Hb Hc)
        as [_ ->]. f_equal. lia.
Qed.

(** The patterns returned at a level itself are part of the result. *)
Lemma unchecked_returned fuel ms n terms r :
  encode_terms ms n = Some terms → qm_simplify fuel ms n = Returned r →
  (pair_loop terms).2 ⊆ r.
Proof.
  destruct fuel as [|fuel]; [done|]. intros Ht. rewrite qm_simplify_S, Ht.
  destruct (decide _); [by intros [= <-]|].
  destruct (next_minterms _) as [ms'|]; [|done].
  destruct (qm_simplify fuel ms' n) as [rest| |]; try done.
  intros [= <-] x Hx. apply elem_of_union. by right.
Qed.

End kept_minterms.

(** * Edge inputs and the fate of single minterms *)

Section engine_more.

Import Py.

Lemma qm_simplify_of_empty fuel n : qm_simplify (S fuel) ∅ n = Returned ∅.
Proof.
  rewrite qm_simplify_S. unfold encode_terms. rewrite elements_empty. simpl.
  assert ((pair_loop ∅).1 = ∅) as Hnew.
  { apply leibniz_equiv. intros c. rewrite new_terms_spec. split.
    - by intros (a & _ & ?%elem_of_empty & _).
    - by intros ?%elem_of_empty. }
  rewrite Hnew. by destruct (decide _).
Qed.

Lemma qm_simplify_of_singleton fuel m n s :
  format_bin m n = Some s → qm_simplify (S fuel) {[m]} n = Returned {[s]}.
Proof.
  intros Hs. rewrite qm_simplify_S.
  assert (encode_terms {[m]} n = Some {[s]}) as ->.
  { unfold encode_terms. rewrite elements_singleton. simpl. rewrite Hs. simpl.
    f_equal. apply (right_id_L ∅ (∪)). }
  assert ((pair_loop {[s]}).1 = ∅) as Hnew.
  { apply leibniz_equiv. intros c. rewrite new_terms_spec. split.
    - intros (a & b & ->%elem_of_singleton & ->%elem_of_singleton & Hc).
      by rewrite combine_self in Hc.
    - by intros ?%elem_of_empty. }
  rewrite Hnew. destruct (decide _); [|done]. f_equal.
  apply leibniz_equiv. intros x. rewrite unchecked_spec. split; [tauto|].
  intros Hx. split; [done|]. intros y ->%elem_of_singleton.
  apply elem_of_singleton in Hx as ->. apply combine_self.
Qed.

(** X6.  An empty minterm set comes back as the empty set, for every
    [num_vars], a negative one included: [format] is never called. *)
Theorem qm_simplify_empty (fuel : nat) (n : Z) :
  qm_simplify (S fuel) ∅ n = Returned ∅.
Proof. apply qm_simplify_of_empty. Qed.

(** X7.  With a negative [num_vars] and at least one minterm the call
    raises [ValueError], at the first [format]. *)
Theorem qm_simplify_raises_on_negative_width (fuel : nat) (ms : gset Z) (n : Z) :
  n < 0 → ms ≠ ∅ → qm_simplify (S fuel) ms n = ValueError.
Proof.
  intros Hn Hms. rewrite qm_simplify_S. by rewrite encode_terms_negative_width.
Qed.

(** X8.  For two indices in range whose encodings [combine] merges, the
    index that the recursive call receives, [int(c.replace('-', '0'), 2)],
    is the smaller of the two. *)
Theorem combined_pattern_reencodes_to_smaller (n x y : Z) (a b c : string) :
  1 ≤ n → 0 ≤ x < 2 ^ n → 0 ≤ y < 2 ^ n →
  format_bin x n = Some a → format_bin y n = Some b →
  combine a b = Some c →
  int2 (replace_dash c) = Some (x `min` y).
Proof. intros. by eapply combine_reencoded. Qed.

(** X9.  On a valid input the minterm set of the recursive call holds
    exactly the minterms that have a larger adjacent minterm. *)
Theorem next_level_minterms (ms ms' : gset Z) (n : Z) (terms : gset string) :
  1 ≤ n → in_range n ms →
  encode_terms ms n = Some terms →
  next_minterms (pair_loop terms).1 = Some ms' →
  ∀ x, x ∈ ms' ↔ x ∈ ms ∧ ∃ y, y ∈ ms ∧ x < y ∧ adjacent n x y.
Proof. intros ? ? ? ? x. by eapply next_minterms_smaller. Qed.

(** X10.  On a valid input a minterm adjacent to no minterm is returned as
    its own pattern. *)
Theorem isolated_minterm_is_returned (ms : gset Z) (n x : Z) :
  1 ≤ n → in_range n ms → x ∈ ms →
  (∀ y, y ∈ ms → ¬ adjacent n x y) →
  ∃ r s, (∀ fuel, (S (Z.to_nat n) ≤ fuel)%nat →
                  qm_simplify fuel ms n = Returned r)
         ∧ format_bin x n = Some s ∧ s ∈ r.
Proof.
  intros Hn Hr Hx Hiso. destruct (qm_simplify_returns ms n Hn Hr) as [r Hret].
  destruct (format_bin_is_Some x n ltac:(lia)) as [s Hs].
  exists r, s. split; [done|]. split; [done|].
  destruct (encode_terms_Some ms n ltac:(lia)) as (terms & Ht & Hterms).
  apply (unchecked_returned _ ms n terms r Ht (Hret _ (le_n _))).
  apply unchecked_spec. split; [apply Hterms; eauto|].
  intros t (y & Hy & Hfy)%Hterms.
  destruct (combine s t) as [c|] eqn:Hc; [|done].
  destruct (Hiso y Hy). exists s, t. by rewrite Hc.
Qed.

(** X11.  On a valid input, if the largest minterm is adjacent to another
    minterm, no returned pattern covers it. *)
Theorem largest_adjacent_minterm_is_dropped (ms : gset Z) (n x y : Z) :
  1 ≤ n → in_range n ms → y ∈ ms → (∀ z, z ∈ ms → z ≤ y) →
  x ∈ ms → adjacent n x y →
  ∃ r, (∀ fuel, (S (Z.to_nat n) ≤ fuel)%nat →
                qm_simplify fuel ms n = Returned r)
       ∧ ∀ p, p ∈ r → covers p y n = false.
Proof.
  intros Hn Hr Hy Hmax Hx (a & b & Ha & Hb & [c Hc]).
  destruct (qm_simplify_returns_encodings ms n Hn Hr) as (r & Hret & Henc).
  exists r. split; [done|]. intros p Hp.
  destruct (covers p y n) eqn:Hcov; [exfalso|done].
  destruct (Henc p Hp) as (m & Hm & Hrange & Hf).
  apply (covers_binary p m n) in Hcov as ->; [|lia|done].
  assert (p = b) as -> by congruence. clear Hf.
  pose proof (Hret _ (le_n _)) as Hcall. rewrite qm_simplify_S in Hcall.
  destruct (encode_terms ms n) as [terms|] eqn:Ht; [|done].
  assert (a ∈ terms) as Hat by (apply (encode_terms_elem _ _ _ _ Ht); eauto).
  assert (b ∉ (pair_loop terms).2) as Hun.
  { intros [_ H]%unchecked_spec. by rewrite combine_swap, (H a Hat) in Hc. }
  destruct (decide _); [by injection Hcall as <-|].
  destruct (next_minterms _) as [ms'|] eqn:Hms'; [|done].
  destruct (next_minterms_valid ms n terms ms' O Hn Hr) as [Hsub _];
    [intros ? ? ? ?; lia|done|done|].
  destruct (qm_simplify (Z.to_nat n) ms' n) as [rest| |] eqn:Hrec; try done.
  injection Hcall as <-. apply elem_of_union in Hp as [Hp|Hp]; [|done].
  destruct (qm_simplify_encodings _ ms' n rest Hn
              (in_range_subseteq _ _ _ Hsub Hr) Hrec b Hp) as (m' & Hm' & Hf').
  assert (m' = m) as -> by (eapply format_bin_inj; [|exact Hb|exact Hf']; lia).
  apply (next_minterms_smaller ms n terms ms' m Hn Hr Ht Hms') in Hm'
    as (_ & z & Hz & Hlt & _).
  specialize (Hmax z Hz). lia.
Qed.

Lemma smallest_minterm_kept fuel ms n r x s :
  1 ≤ n → in_range n ms → x ∈ ms → (∀ z, z ∈ ms → x ≤ z) →
  qm_simplify fuel ms n = Returned r → format_bin x n = Some s → s ∈ r.
Proof.
  intros Hn. revert ms r.
  induction fuel as [|fuel IH]; intros ms r Hr Hx Hmin; [done|].
  rewrite qm_simplify_S. destruct (encode_terms ms n) as [terms|] eqn:Ht; [|done].
  intros Hcall Hs.
  assert (s ∈ terms) as Hst by (apply (encode_terms_elem _ _ _ _ Ht); eauto).
  destruct (decide _) as [Hempty|Hne].
  - injection Hcall as <-. apply unchecked_spec. split; [done|].
    intros t Ht'. destruct (combine s t) as [c|] eqn:Hc; [|done].
    assert (c ∈ (pair_loop terms).1) as Hin
        by (apply new_terms_spec; eauto 6).
    rewrite Hempty in Hin. by apply elem_of_empty in Hin.
  - destruct (next_minterms _) as [ms'|] eqn:Hms'; [|done].
    destruct (next_minterms_valid ms n terms ms' O Hn Hr) as [Hsub _];
      [intros ? ? ? ?; lia|done|done|].
    destruct (qm_simplify fuel ms' n) as [rest| |] eqn:Hrec; try done.
    injection Hcall as <-. apply elem_of_union.
    destruct (decide (x ∈ ms')) as [Hin|Hout].
    + left. apply (IH ms' rest); try done.
      * by eapply in_range_subseteq.
      * intros z Hz. by apply Hmin, Hsub.
    + right. apply unchecked_spec. split; [done|].
      intros t (y & Hy & Hfy)%(encode_terms_elem _ _ _ _ Ht).
      destruct (combine s t) as [c|] eqn:Hc; [|done].
      destruct (combine_reencoded n x y s t c Hn (Hr _ Hx) (Hr _ Hy) Hs Hfy Hc)
        as [Hxy _].
      destruct Hout.
      apply (next_minterms_smaller ms n terms ms' x Hn Hr Ht Hms').
      split; [done|]. exists y. split; [done|].
      split; [specialize (Hmin y Hy); lia|]. exists s, t. by rewrite Hc.
Qed.

(** X12.  On a valid input the smallest minterm is always returned as its
    own pattern; a non-empty minterm set never gives an empty result. *)
Theorem smallest_minterm_is_returned (ms : gset Z) (n x : Z) :
  1 ≤ n → in_range n ms → x ∈ ms → (∀ z, z ∈ ms → x ≤ z) →
  ∃ r s, (∀ fuel, (S (Z.to_nat n) ≤ fuel)%nat →
                  qm_simplify fuel ms n = Returned r)
         ∧ format_bin x n = Some s ∧ s ∈ r.
Proof.
  intros Hn Hr Hx Hmin. destruct (qm_simplify_returns ms n Hn Hr) as [r Hret].
  destruct (format_bin_is_Some x n ltac:(lia)) as [s Hs].
  exists r, s. split; [done|]. split; [done|].
  by apply (smallest_minterm_kept _ ms n r x s Hn Hr Hx Hmin (Hret _ (le_n _))).
Qed.

End engine_more.

(** * Rendering what the engine returns *)

Section renderer_more.

Import Py.

Lemma string_app_assoc (s t u : string) : (s ++ t) ++ u = s ++ t ++ u.
Proof. induction s as [|c s IH]; simpl; [done|]. by rewrite IH. Qed.

(** On a string of binary digits with a name for every position the loop
    appends one literal per name. *)
Lemma bits_loop_binary p (vars terms : list string) :
  binary p = true → String.length p = length vars →
  ∃ lits, bits_loop p vars terms = (terms ++ lits)%list
          ∧ Forall2 (λ v lit, lit = v ∨ lit = "!" ++ v) vars lits.
Proof.
  revert vars terms. induction p as [|c p IH]; intros [|v vars] terms; simpl;
    try done.
  - intros _ _. exists []. by rewrite app_nil_r.
  - intros [Hc Hp]%andb_true_iff [= Hl].
    destruct (binary_char_cases c Hc) as [-> | ->]; simpl.
    + destruct (IH vars (terms ++ [String "!" v])%list Hp Hl)
        as (lits & -> & Hlits).
      exists (String "!" v :: lits). rewrite <- app_assoc. split; [done|].
      constructor; [by right|done].
    + destruct (IH vars (terms ++ [v])%list Hp Hl) as (lits & -> & Hlits).
      exists (v :: lits). rewrite <- app_assoc. split; [done|].
      constructor; [by left|done].
Qed.

(** X13.  On a valid input with one variable name per position every
    returned pattern renders as a product of exactly one literal per
    variable, the variable or its negation: never as the constant. *)
Theorem returned_patterns_render_as_full_terms
    (ms : gset Z) (n : Z) (vars : list string) :
  1 ≤ n → in_range n ms → length vars = Z.to_nat n →
  ∃ r, (∀ fuel, (S (Z.to_nat n) ≤ fuel)%nat → qm_simplify fuel ms n = Returned r)
       ∧ ∀ p, p ∈ r →
              ∃ lits, bits_to_expr p vars = join "." lits
                      ∧ Forall2 (λ v lit, lit = v ∨ lit = "!" ++ v) vars lits.
Proof.
  intros Hn Hr Hvars.
  destruct (qm_simplify_returns_encodings ms n Hn Hr) as (r & Hret & Henc).
  exists r. split; [done|]. intros p Hp.
  destruct (Henc p Hp) as (m & Hm & Hrange & Hf).
  pose proof (format_bin_binary m n p ltac:(lia) Hf) as Hb.
  pose proof (format_bin_length m n p Hn Hrange Hf) as Hl.
  destruct (bits_loop_binary p vars [] Hb ltac:(lia)) as (lits & Hloop & Hlits).
  exists lits. split; [|done]. unfold bits_to_expr. rewrite Hloop. simpl.
  destruct lits as [|lit lits]; [|done].
  apply Forall2_length in Hlits. simpl in Hlits. lia.
Qed.

Lemma bits_loop_extra_bits s t vars terms :
  String.length s = length vars →
  bits_loop (s ++ t) vars terms = bits_loop s vars terms.
Proof.
  revert vars terms. induction s as [|c s IH]; intros [|v vars] terms; simpl;
    try done.
  - intros _. by destruct t.
  - intros [= Hl]. by rewrite !IH.
Qed.

Lemma bits_loop_extra_names s vars extra terms :
  String.length s = length vars →
  bits_loop s (vars ++ extra) terms = bits_loop s vars terms.
Proof.
  revert vars terms. induction s as [|c s IH]; intros [|v vars] terms; simpl;
    try done.
  intros [= Hl]. by rewrite !IH.
Qed.

(** X14.  [zip] stops at the shorter argument: positions of the pattern
    beyond the last name, and names beyond the last position, are ignored
    without an error. *)
Theorem bits_to_expr_ignores_the_excess
    (s t : string) (vars extra : list string) :
  String.length s = length vars →
  bits_to_expr (s ++ t) vars = bits_to_expr s vars
  ∧ bits_to_expr s (vars ++ extra) = bits_to_expr s vars.
Proof.
  intros Hl. unfold bits_to_expr.
  by rewrite bits_loop_extra_bits, bits_loop_extra_names.
Qed.

End renderer_more.

(** * The minterms that [main] passes on *)

Section main_more.

Import Py.

Lemma elem_of_main_minterms column i :
  i ∈ main_minterms column ↔ ∃ k : nat, i = Z.of_nat k ∧ column !! k = Some 1.
Proof.
  unfold main_minterms. rewrite elem_of_list_to_set, list_elem_of_omap.
  split.
  - intros ([k v] & [k' Hk]%list_elem_of_lookup & Hi). simpl in Hi.
    apply list_lookup_imap_Some in Hk.
    destruct Hk as (v' & Hv' & [= -> ->]).
    destruct (decide (v' = 1)) as [->|]; [|done]. injection Hi as <-. eauto.
  - intros (k & -> & Hk). exists (k, 1). split.
    + apply list_elem_of_lookup. exists k. apply list_lookup_imap_Some. eauto.
    + simpl. by destruct (decide (1 = 1)).
Qed.

Lemma main_minterms_range column n :
  Z.of_nat (length column) = 2 ^ n → in_range n (main_minterms column).
Proof.
  intros Hl i (k & -> & Hk%lookup_lt_Some)%elem_of_main_minterms. lia.
Qed.

(** X15.  The set [main] builds holds exactly the row numbers whose [F]
    is 1; for a table of [2^n] rows it lies in [[0, 2^n)]. *)
Theorem main_minterms_are_the_true_rows (column : list Z) (n : Z) :
  Z.of_nat (length column) = 2 ^ n →
  in_range n (main_minterms column)
  ∧ ∀ i, i ∈ main_minterms column ↔
         ∃ k : nat, i = Z.of_nat k ∧ column !! k = Some 1.
Proof.
  intros Hl. split; [by apply main_minterms_range|].
  intros i. apply elem_of_main_minterms.
Qed.

(** X16.  For a table of [2^n] rows over [n ≥ 1] variables the call [main]
    makes returns, and each returned pattern is the encoding of a row number
    whose [F] is 1. *)
Theorem main_simplified_returns_true_rows
    (args : cli_args) (column : list Z) (vars : list string) :
  (1 ≤ length vars)%nat →
  Z.of_nat (length column) = 2 ^ Z.of_nat (length vars) →
  ∃ r, (∀ fuel, (S (length vars) ≤ fuel)%nat →
                main_simplified fuel args column vars = Returned r)
       ∧ ∀ p, p ∈ r →
              ∃ k : nat, column !! k = Some 1
                         ∧ format_bin (Z.of_nat k) (Z.of_nat (length vars))
                           = Some p.
Proof.
  intros Hn Hl. unfold main_simplified.
  pose proof (main_minterms_range column _ Hl) as Hr.
  destruct (qm_simplify_returns_encodings (main_minterms column)
              (Z.of_nat (length vars)) ltac:(lia) Hr) as (r & Hret & Henc).
  exists r. split.
  - intros fuel Hfuel. apply Hret. rewrite Nat2Z.id. lia.
  - intros p Hp. destruct (Henc p Hp) as (m & Hm & _ & Hf).
    apply elem_of_main_minterms in Hm as (k & -> & Hk). eauto.
Qed.

(** X17.  Without variables the table has a single row: the simplified set
    is [{"0"}] when its [F] is 1, rendered as the constant ["1"], and empty
    otherwise, rendered as the empty string. *)
Theorem main_simplified_without_variables
    (fuel : nat) (args : cli_args) (b : Z) :
  main_simplified (S fuel) args [b] []
  = Returned (if decide (b = 1) then {["0"]} else ∅)
  ∧ simplified_expr ["0"] [] = "1"
  ∧ simplified_expr [] [] = "".
Proof.
  split; [|by split]. unfold main_simplified.
  assert (main_minterms [b] = if decide (b = 1) then {[0]} else ∅) as ->.
  { unfold main_minterms. simpl. destruct (decide (b = 1)); simpl; [|done].
    apply (right_id_L ∅ (∪)). }
  change (Z.of_nat (length [])) with 0.
  destruct (decide (b = 1)).
  - by apply qm_simplify_of_singleton.
  - apply qm_simplify_of_empty.
Qed.

End main_more.

(** * The rows of the truth table *)

Section truth_table_facts.

Import Py.

Lemma length_product01 n : length (product01 n) = (2 ^ n)%nat.
Proof.
  induction n as [|n IH]; simpl; [done|].
  rewrite List.length_app, !length_fmap, IH. lia.
Qed.

(** Strings of binary digits of one length and one value are equal. *)
Lemma binary_value_inj a b :
  binary a = true → binary b = true →
  String.length a = String.length b →
  int2_digits a 0 = int2_digits b 0 → a = b.
Proof.
  revert b. induction a as [|x a IH]; intros [|y b]; simpl; try done.
  intros [Hx Ha]%andb_true_iff [Hy Hb]%andb_true_iff [= Hl].
  destruct (int2_digits_value a Ha) as (wa & Hwa & Haacc).
  destruct (int2_digits_value b Hb) as (wb & Hwb & Hbacc).
  rewrite <- Hl in Hwb, Hbacc.
  destruct (binary_char_cases x Hx) as [-> | ->],
    (binary_char_cases y Hy) as [-> | ->]; simpl;
    rewrite Haacc, Hbacc; intros [= Hv]; try lia;
    f_equal; apply IH; try done; rewrite Haacc, Hbacc; f_equal; lia.
Qed.

Lemma product01_row n i :
  (i < 2 ^ n)%nat →
  ∃ combo, product01 n !! i = Some combo
           ∧ length combo = n
           ∧ binary (bits_string combo) = true
           ∧ String.length (bits_string combo) = n
           ∧ int2_digits (bits_string combo) 0 = Some (Z.of_nat i).
Proof.
  revert i. induction n as [|n IH]; intros i Hi.
  - simpl in Hi. assert (i = O) as -> by lia. exists []. by repeat split.
  - simpl product01. rewrite Nat.pow_succ_r' in Hi.
    destruct (decide (i < 2 ^ n)%nat) as [Hlt|Hge].
    + destruct (IH i Hlt) as (combo & Hrow & Hlen & Hbin & Hsl & Hval).
      exists (0 :: combo).
      rewrite lookup_app_l by (rewrite length_fmap, length_product01; lia).
      rewrite list_lookup_fmap, Hrow. simpl. rewrite Hbin, Hsl, Hlen.
      by repeat split.
    + destruct (IH (i - 2 ^ n)%nat ltac:(lia))
        as (combo & Hrow & Hlen & Hbin & Hsl & Hval).
      exists (1 :: combo).
      rewrite lookup_app_r by (rewrite length_fmap, length_product01; lia).
      rewrite length_fmap, length_product01, list_lookup_fmap, Hrow. simpl.
      rewrite Hbin, Hsl, Hlen. repeat split; try done.
      destruct (int2_digits_value _ Hbin) as (w & Hw & Hacc).
      rewrite Hacc in Hval. rewrite Hacc. injection Hval as Hval.
      rewrite Hsl in *. f_equal.
      rewrite Nat2Z.inj_sub, Nat2Z.inj_pow in Hval by lia. lia.
Qed.

Lemma product01_format n i combo :
  (1 ≤ n)%nat → product01 n !! i = Some combo →
  format_bin (Z.of_nat i) (Z.of_nat n) = Some (bits_string combo).
Proof.
  intros Hn Hrow.
  assert (i < 2 ^ n)%nat as Hi
      by (rewrite <- length_product01; by eapply lookup_lt_Some).
  destruct (product01_row n i Hi) as (combo' & Hrow' & _ & Hbin & Hsl & Hval).
  assert (combo' = combo) as -> by congruence.
  assert (0 ≤ Z.of_nat i < 2 ^ Z.of_nat n) as Hrange.
  { split; [lia|]. apply Nat2Z.inj_lt in Hi. by rewrite Nat2Z.inj_pow in Hi. }
  destruct (format_bin_is_Some (Z.of_nat i) (Z.of_nat n) ltac:(lia)) as [s Hs].
  rewrite Hs. f_equal. apply binary_value_inj.
  - eapply format_bin_binary; [|done]. lia.
  - done.
  - rewrite (format_bin_length (Z.of_nat i) (Z.of_nat n) s), Hsl; (done || lia).
  - rewrite (format_bin_int2_digits (Z.of_nat i) (Z.of_nat n) s); (done || lia).
Qed.

(** X18.  [itertools.product([0, 1], repeat=n)] yields [2^n] combinations,
    and for [n ≥ 1] the digits of combination number [i] spell
    [format(i, '0nb')]: rows and patterns use the same encoding, first
    variable first. *)
Theorem combinations_spell_the_encodings (n i : nat) (combo : list Z) :
  (1 ≤ n)%nat → product01 n !! i = Some combo →
  length (product01 n) = (2 ^ n)%nat
  ∧ length combo = n
  ∧ format_bin (Z.of_nat i) (Z.of_nat n) = Some (bits_string combo).
Proof.
  intros Hn Hrow. split; [apply length_product01|].
  split; [|by apply product01_format].
  assert (i < 2 ^ n)%nat as Hi
      by (rewrite <- length_product01; by eapply lookup_lt_Some).
  destruct (product01_row n i Hi) as (combo' & Hrow' & Hlen & _). congruence.
Qed.

Lemma dict_get_set k v d : dict_get k (dict_set k v d) = Some v.
Proof.
  induction d as [|[k' v'] d IH]; simpl.
  - by rewrite String.eqb_refl.
  - destruct (String.eqb_spec k k') as [->|Hk]; simpl.
    + by rewrite String.eqb_refl.
    + by destruct (String.eqb_spec k k').
Qed.

Lemma dict_set_fresh k v (d : dict) : k ∉ d.*1 → dict_set k v d = (d ++ [(k, v)])%list.
Proof.
  induction d as [|[k' v'] d IH]; csimpl; [done|].
  intros [Hk Hd]%not_elem_of_cons.
  destruct (String.eqb_spec k k'); [done|]. by rewrite IH.
Qed.

Lemma dict_set_keys k v (d : dict) : k ∈ d.*1 → (dict_set k v d).*1 = d.*1.
Proof.
  induction d as [|[k' v'] d IH]; csimpl; [by intros ?%elem_of_nil|].
  destruct (String.eqb_spec k k') as [->|Hk]; [done|].
  intros [?|?]%elem_of_cons; [done|]. csimpl. by rewrite IH.
Qed.

Lemma fold_dict_set_fresh (keys : list string) (values : list Z) (d : dict) :
  NoDup keys → (∀ k, k ∈ keys → k ∉ d.*1) →
  fold_left (λ d kv, dict_set kv.1 kv.2 d) (zip keys values) d
  = (d ++ zip keys values)%list.
Proof.
  revert values d. induction keys as [|k keys IH]; intros [|v values] d;
    simpl; rewrite ?app_nil_r; try done.
  intros [Hk Hkeys]%NoDup_cons Hd.
  rewrite dict_set_fresh by (apply Hd, elem_of_cons; auto).
  rewrite IH, <- app_assoc; [done|done|].
  intros k' Hk'. rewrite fmap_app, elem_of_app. simpl.
  intros [?|?%list_elem_of_singleton].
  - destruct (Hd k'); [apply elem_of_cons; auto|done].
  - by subst.
Qed.

(** With distinct keys [dict(zip(keys, values))] is the list of pairs. *)
Lemma dict_zip_NoDup keys values :
  NoDup keys → dict_zip keys values = zip keys values.
Proof.
  intros Hk. unfold dict_zip. rewrite fold_dict_set_fresh; [done|done|].
  intros k _. simpl. by intros ?%elem_of_nil.
Qed.

Section with_collaborators.

Variable letters_sorted : string → list string.
Variable evaluate_expression : string → dict → option Z.

Lemma truth_table_lookup expr table i row :
  truth_table letters_sorted evaluate_expression expr = Some table →
  table !! i = Some row →
  ∃ combo result,
    product01 (length (letters_sorted expr)) !! i = Some combo
    ∧ evaluate_expression (parse_expression expr)
        (dict_zip (letters_sorted expr) combo) = Some result
    ∧ row = dict_set "F" result (dict_zip (letters_sorted expr) combo).
Proof.
  unfold truth_table. intros Ht%mapM_Some Hrow.
  destruct (Forall2_lookup_r _ _ _ _ _ Ht Hrow) as (combo & Hcombo & Hr).
  unfold truth_table_row in Hr.
  destruct (evaluate_expression _ _) as [result|] eqn:He; [|done].
  simpl in Hr. injection Hr as <-. eauto.
Qed.

End with_collaborators.

(** X19.  [truth_table] has one row per combination, [2^n] for [n]
    variables, in the order of [itertools.product]; the [F] of row [i] is
    the value of the parsed expression under the [i]-th assignment. *)
Theorem truth_table_rows
    (letters_sorted : string → list string)
    (evaluate_expression : string → dict → option Z)
    (expr : string) (table : list dict) :
  truth_table letters_sorted evaluate_expression expr = Some table →
  length table = (2 ^ length (letters_sorted expr))%nat
  ∧ ∀ i row, table !! i = Some row →
             ∃ combo, product01 (length (letters_sorted expr)) !! i = Some combo
                      ∧ dict_get "F" row
                        = evaluate_expression (parse_expression expr)
                            (dict_zip (letters_sorted expr) combo).
Proof.
  intros Ht. split.
  - unfold truth_table in Ht. apply length_mapM in Ht.
    by rewrite <- Ht, length_product01.
  - intros i row Hrow.
    destruct (truth_table_lookup _ _ _ _ _ _ Ht Hrow)
      as (combo & result & Hcombo & He & ->).
    exists combo. split; [done|]. by rewrite dict_get_set, He.
Qed.

Lemma truth_table_column
    (letters_sorted : string → list string)
    (evaluate_expression : string → dict → option Z)
    (expr : string) (table : list dict) :
  truth_table letters_sorted evaluate_expression expr = Some table →
  ∃ column,
    column_F table = Some column
    ∧ in_range (Z.of_nat (length (letters_sorted expr))) (main_minterms column)
    ∧ ∀ i, i ∈ main_minterms column ↔
           ∃ (k : nat) combo,
             i = Z.of_nat k
             ∧ product01 (length (letters_sorted expr)) !! k = Some combo
             ∧ evaluate_expression (parse_expression expr)
                 (dict_zip (letters_sorted expr) combo) = Some 1.
Proof.
  intros Ht.
  assert (∀ k row, table !! k = Some row → ∃ combo,
             product01 (length (letters_sorted expr)) !! k = Some combo
             ∧ dict_get "F" row
               = evaluate_expression (parse_expression expr)
                   (dict_zip (letters_sorted expr) combo)
             ∧ is_Some (dict_get "F" row)) as Hrows.
  { intros k row Hrow.
    destruct (truth_table_lookup _ _ _ _ _ _ Ht Hrow)
      as (combo & result & Hcombo & He & ->).
    exists combo. rewrite dict_get_set, He. eauto. }
  assert (length table = (2 ^ length (letters_sorted expr))%nat) as Hlen.
  { unfold truth_table in Ht. apply length_mapM in Ht.
    by rewrite <- Ht, length_product01. }
  destruct (column_F table) as [column|] eqn:Hcol.
  - exists column. split; [done|]. unfold column_F in Hcol.
    pose proof (length_mapM _ _ _ Hcol) as Hlc. apply mapM_Some in Hcol.
    split.
    + apply main_minterms_range. rewrite <- Hlc, Hlen, Nat2Z.inj_pow. done.
    + intros i. rewrite elem_of_main_minterms. split.
      * intros (k & -> & Hk).
        destruct (Forall2_lookup_r _ _ _ _ _ Hcol Hk) as (row & Hrow & HF).
        destruct (Hrows k row Hrow) as (combo & Hcombo & He & _).
        exists k, combo. split; [done|]. split; [done|]. congruence.
      * intros (k & combo & -> & Hcombo & He). exists k. split; [done|].
        assert (k < length table)%nat as Hk.
        { rewrite Hlen, <- length_product01. by eapply lookup_lt_Some. }
        destruct (lookup_lt_is_Some_2 table k Hk) as [row Hrow].
        destruct (Forall2_lookup_l _ _ _ _ _ Hcol Hrow) as (v & Hv & HF).
        destruct (Hrows k row Hrow) as (combo' & Hcombo' & He' & _).
        congruence.
  - unfold column_F in Hcol. apply mapM_None, Exists_exists in Hcol.
    destruct Hcol as (row & [k Hrow]%list_elem_of_lookup & Hnone).
    destruct (Hrows k row Hrow) as (_ & _ & _ & [? ?]). congruence.
Qed.

(** X20.  On the table of [truth_table], reading [row['F']] never fails, and
    the minterm set [main] builds lies in [[0, 2^n)]: it holds exactly the
    numbers of the combinations under which the parsed expression is 1. *)
Theorem truth_table_minterms
    (letters_sorted : string → list string)
    (evaluate_expression : string → dict → option Z)
    (expr : string) (table : list dict) :
  truth_table letters_sorted evaluate_expression expr = Some table →
  ∃ column,
    column_F table = Some column
    ∧ in_range (Z.of_nat (length (letters_sorted expr))) (main_minterms column)
    ∧ ∀ i, i ∈ main_minterms column ↔
           ∃ (k : nat) combo,
             i = Z.of_nat k
             ∧ product01 (length (letters_sorted expr)) !! k = Some combo
             ∧ evaluate_expression (parse_expression expr)
                 (dict_zip (letters_sorted expr) combo) = Some 1.
Proof. apply truth_table_column. Qed.

(** X27.  From the expression to the simplified set: when [truth_table]
    returns for an expression of [n ≥ 1] variables, the call [main] makes on
    its minterms returns, and every returned pattern spells a combination
    under which the parsed expression evaluates to 1. *)
Theorem simplified_terms_satisfy_the_expression
    (letters_sorted : string → list string)
    (evaluate_expression : string → dict → option Z)
    (args : cli_args) (expr : string) (table : list dict) :
  (1 ≤ length (letters_sorted expr))%nat →
  truth_table letters_sorted evaluate_expression expr = Some table →
  ∃ column r,
    column_F table = Some column
    ∧ (∀ fuel, (S (length (letters_sorted expr)) ≤ fuel)%nat →
               main_simplified fuel args column (letters_sorted expr)
               = Returned r)
    ∧ ∀ p, p ∈ r →
           ∃ combo, combo ∈ product01 (length (letters_sorted expr))
                    ∧ bits_string combo = p
                    ∧ evaluate_expression (parse_expression expr)
                        (dict_zip (letters_sorted expr) combo) = Some 1.
Proof.
  intros Hn Ht.
  destruct (truth_table_column _ _ _ _ Ht) as (column & Hcol & Hr & Hin).
  destruct (qm_simplify_returns_encodings (main_minterms column)
              (Z.of_nat (length (letters_sorted expr))) ltac:(lia) Hr)
    as (r & Hret & Henc).
  exists column, r. split; [done|]. split.
  - intros fuel Hfuel. unfold main_simplified. apply Hret.
    rewrite Nat2Z.id. lia.
  - intros p Hp. destruct (Henc p Hp) as (m & Hm & _ & Hf).
    apply Hin in Hm as (k & combo & -> & Hcombo & He).
    exists combo. split; [by eapply list_elem_of_lookup_2|]. split; [|done].
    pose proof (product01_format _ _ _ Hn Hcombo) as Hf'. congruence.
Qed.

(** X21.  The keys of a row are the variables followed by ['F'], unless
    ['F'] is itself a variable: then the result overwrites that variable's
    bit and the row has no column of its own for it. *)
Theorem truth_table_row_keys
    (evaluate_expression : string → dict → option Z)
    (vars : list string) (parsed_expr : string) (combo : list Z) (row : dict) :
  NoDup vars → length vars = length combo →
  truth_table_row evaluate_expression vars parsed_expr combo = Some row →
  row.*1 = (if decide ("F" ∈ vars) then vars else vars ++ ["F"])%list
  ∧ dict_get "F" row
    = evaluate_expression parsed_expr (dict_zip vars combo).
Proof.
  intros Hnd Hl. unfold truth_table_row.
  destruct (evaluate_expression _ _) as [result|] eqn:He; [|done].
  simpl. intros [= <-]. split; [|by rewrite dict_get_set].
  rewrite dict_zip_NoDup by done.
  assert ((zip vars combo).*1 = vars) as Hkeys by (apply fst_zip; lia).
  destruct (decide ("F" ∈ vars)) as [Hin|Hout].
  - rewrite dict_set_keys; [done|]. by rewrite Hkeys.
  - rewrite dict_set_fresh by by rewrite Hkeys.
    by rewrite fmap_app, Hkeys.
Qed.

End truth_table_facts.

(** * The expression parser *)

Section parser_facts.

Lemma occurs_append c s t : occurs c (s ++ t) = occurs c s || occurs c t.
Proof. induction s as [|d s IH]; simpl; [done|]. by rewrite IH, orb_assoc. Qed.

Lemma occurs_replace_char_old c new s :
  occurs c new = false → occurs c (replace_char c new s) = false.
Proof.
  intros Hnew. induction s as [|d s IH]; simpl; [done|].
  destruct (Ascii.eqb_spec d c) as [->|Hd].
  - by rewrite occurs_append, Hnew, IH.
  - simpl. rewrite IH. by destruct (Ascii.eqb_spec d c).
Qed.

Lemma occurs_replace_char_other c old new s :
  occurs c new = false → occurs c s = false →
  occurs c (replace_char old new s) = false.
Proof.
  intros Hnew. induction s as [|d s IH]; simpl; [done|].
  intros [Hd Hs]%orb_false_iff. destruct (Ascii.eqb d old).
  - by rewrite occurs_append, Hnew, IH.
  - simpl. by rewrite Hd, IH.
Qed.

Lemma occurs_sub_not c s in_name :
  occurs c "(not )" = false → occurs c s = false →
  occurs c (sub_not s in_name) = false.
Proof.
  intros Hc. simpl in Hc. rewrite !orb_false_iff in Hc.
  destruct Hc as (H1 & H2 & H3 & H4 & H5 & H6 & _).
  revert in_name. induction s as [|d s IH]; intros in_name; simpl.
  - intros _. destruct in_name; simpl; [by rewrite H6|done].
  - intros [Hd Hs]%orb_false_iff.
    destruct (in_name && word_char d); simpl; [by rewrite Hd, IH|].
    rewrite occurs_append.
    assert (occurs c (if in_name then ")" else "") = false) as ->
        by (destruct in_name; simpl; [by rewrite H6|done]).
    destruct (Ascii.eqb d "!" && starts_with_word s); simpl.
    + by rewrite H1, H2, H3, H4, H5, IH.
    + by rewrite Hd, IH.
Qed.

(** X22.  The parsed expression contains neither ['.'] nor ['+']. *)
Theorem parse_expression_has_no_dot_or_plus (expr : string) :
  occurs "." (parse_expression expr) = false
  ∧ occurs "+" (parse_expression expr) = false.
Proof.
  unfold parse_expression. split; apply occurs_sub_not; try done.
  - apply occurs_replace_char_other; [done|].
    by apply occurs_replace_char_old.
  - by apply occurs_replace_char_old.
Qed.

Lemma word_char_not_bang c : word_char c = true → Ascii.eqb c "!" = false.
Proof. destruct (Ascii.eqb_spec c "!") as [->|]; [done|done]. Qed.

Lemma starts_with_word_sub_not s :
  starts_with_word (sub_not s false) = starts_with_word s.
Proof.
  destruct s as [|c s]; simpl; [done|].
  destruct (Ascii.eqb_spec c "!") as [->|]; simpl; [|done].
  by destruct (starts_with_word s).
Qed.

Lemma bang_before_word_sub_not s in_name :
  bang_before_word (sub_not s in_name) = false.
Proof.
  revert in_name. induction s as [|c s IH]; intros in_name; simpl.
  - by destruct in_name.
  - destruct in_name; simpl.
    + destruct (word_char c) eqn:Hw; simpl.
      * by rewrite (word_char_not_bang c Hw), IH.
      * destruct (Ascii.eqb_spec c "!") as [->|Hc]; simpl.
        -- destruct (starts_with_word s) eqn:Hs; simpl; [by rewrite IH|].
           by rewrite starts_with_word_sub_not, Hs, IH.
        -- rewrite IH. by destruct (Ascii.eqb_spec c "!").
    + destruct (Ascii.eqb_spec c "!") as [->|Hc]; simpl.
      * destruct (starts_with_word s) eqn:Hs; simpl; [by rewrite IH|].
        by rewrite starts_with_word_sub_not, Hs, IH.
      * rewrite IH. by destruct (Ascii.eqb_spec c "!").
Qed.

(** X23.  In the parsed expression no ['!'] is left directly before a
    name: every negated name has been rewritten. *)
Theorem parse_expression_rewrites_every_negated_name (expr : string) :
  bang_before_word (parse_expression expr) = false.
Proof. apply bang_before_word_sub_not. Qed.

Lemma replace_char_word old new s :
  word_char old = false → all_word s = true → replace_char old new s = s.
Proof.
  intros Hold. induction s as [|c s IH]; simpl; [done|].
  intros [Hc Hs]%andb_true_iff.
  destruct (Ascii.eqb_spec c old) as [->|]; [congruence|]. by rewrite IH.
Qed.

Lemma sub_not_name s : all_word s = true → sub_not s true = s ++ ")".
Proof.
  induction s as [|c s IH]; simpl; [done|].
  intros [-> Hs]%andb_true_iff. simpl. by rewrite IH.
Qed.

(** X24.  A negated name ['!name'] is parsed to ['(not name)']. *)
Theorem parse_expression_negated_name (name : string) :
  name ≠ "" → all_word name = true →
  parse_expression ("!" ++ name) = "(not " ++ name ++ ")".
Proof.
  intros Hne Hname. unfold parse_expression. simpl.
  rewrite (replace_char_word " " "" name eq_refl Hname).
  rewrite (replace_char_word "." "&" name eq_refl Hname).
  rewrite (replace_char_word "+" "|" name eq_refl Hname).
  destruct name as [|c name]; [done|]. simpl in Hname.
  apply andb_true_iff in Hname as [Hc Hname]. simpl. rewrite Hc. simpl.
  by rewrite sub_not_name.
Qed.

End parser_facts.

(** * The second script: substitution and table *)

Section logiccir_facts.

Import Logiccir.

Lemma replace_from_char c new s :
  replace_from (String c "") new s 0 = replace_char c new s.
Proof.
  induction s as [|d s IH]; simpl; [done|].
  destruct (ascii_dec c d) as [->|Hcd].
  - rewrite Ascii.eqb_refl, IH. by destruct s.
  - destruct (Ascii.eqb_spec d c) as [->|]; [done|]. by rewrite IH.
Qed.

Lemma flat_map_chars_id s : flat_map_chars (λ c, String c "") s = s.
Proof. induction s as [|c s IH]; simpl; [done|]. by rewrite IH. Qed.

Lemma flat_map_chars_ext f g s :
  (∀ c, f c = g c) → flat_map_chars f s = flat_map_chars g s.
Proof. intros H. induction s as [|c s IH]; simpl; [done|]. by rewrite H, IH. Qed.

Lemma length_flat_map_chars f s :
  (∀ c, String.length (f c) = 1%nat) →
  String.length (flat_map_chars f s) = String.length s.
Proof.
  intros H. induction s as [|c s IH]; simpl; [done|].
  by rewrite length_append, H, IH.
Qed.

Lemma substituted_char_digit values d :
  Forall bit_of_letter values → d = "0"%char ∨ d = "1"%char →
  substituted_char values d = String d "".
Proof.
  intros Hv Hd. unfold substituted_char.
  induction Hv as [|[k v] values (c & Hk & H0 & H1 & _) _ IH]; simpl; [done|].
  simpl in Hk. subst k. simpl.
  destruct (Ascii.eqb_spec d c) as [->|]; [by destruct Hd|done].
Qed.

Lemma length_substituted_char values c :
  Forall bit_of_letter values →
  String.length (substituted_char values c) = 1%nat.
Proof.
  intros Hv. unfold substituted_char.
  induction Hv as [|[k v] values (c' & Hk & _ & _ & Hbit) _ IH]; simpl; [done|].
  simpl in Hk, Hbit. subst k. simpl.
  destruct (Ascii.eqb c c'); [by destruct Hbit as [-> | ->]|done].
Qed.

Lemma substitute_letters expr values :
  Forall bit_of_letter values →
  substitute expr values = flat_map_chars (substituted_char values) expr.
Proof.
  intros Hv. revert expr.
  induction Hv as [|[k v] values (c & Hk & H0 & H1 & Hbit) Hv IH]; intros expr.
  - simpl. by rewrite flat_map_chars_id.
  - simpl in Hk, Hbit. subst k. unfold substitute in *. simpl.
    rewrite IH, replace_from_char. clear IH.
    induction expr as [|d expr IHe]; simpl; [done|].
    unfold substituted_char at 2. simpl.
    destruct (Ascii.eqb_spec d c) as [->|Hd].
    + rewrite <- IHe.
      destruct Hbit as [-> | ->]; simpl; f_equal;
        by rewrite (substituted_char_digit values) by auto.
    + simpl. by rewrite IHe.
Qed.

End logiccir_facts.

(** X25.  When every variable is a single character other than ['0'] and
    ['1'] and every value is 0 or 1, the substitution loop of [eval_expr]
    replaces each character by the digit of the variable it names and keeps
    every other character; the length of the expression is unchanged. *)
Theorem substitution_is_characterwise (expr : string) (values : dict) :
  Forall Logiccir.bit_of_letter values →
  Logiccir.substitute expr values
  = Logiccir.flat_map_chars (Logiccir.substituted_char values) expr
  ∧ String.length (Logiccir.substitute expr values) = String.length expr.
Proof.
  intros Hv. rewrite substitute_letters by done. split; [done|].
  apply length_flat_map_chars. intros c. by apply length_substituted_char.
Qed.

(** X26.  The table of the second script has [2^n] rows for [n] variables,
    in the order of [itertools.product]; row [i] pairs the [i]-th
    combination with the value of the substituted expression. *)
Theorem logiccir_truth_table_rows
    (int_eval : string → option Z) (expr : string) (variables : list string)
    (table : list (list Z * Z)) :
  Logiccir.truth_table int_eval expr variables = Some table →
  length table = (2 ^ length variables)%nat
  ∧ ∀ i combination result,
      table !! i = Some (combination, result) →
      product01 (length variables) !! i = Some combination
      ∧ int_eval (Logiccir.substitute expr (dict_zip variables combination))
        = Some result.
Proof.
  unfold Logiccir.truth_table. intros Ht. split.
  - apply length_mapM in Ht. by rewrite <- Ht, length_product01.
  - intros i combination result Hrow. apply mapM_Some in Ht.
    destruct (Forall2_lookup_r _ _ _ _ _ Ht Hrow) as (combo & Hcombo & Hr).
    unfold Logiccir.eval_expr in Hr.
    destruct (int_eval _) as [v|] eqn:He; [|done]. simpl in Hr.
    by injection Hr as -> ->.
Qed.

(** * Concrete inputs for the further properties *)

Lemma combine_agrees_with_parents_witness :
  binary "01" = true ∧ binary "11" = true ∧ binary "11" = true
  ∧ String.length "01" = String.length "11"
  ∧ combine "01" "11" = Some "-1"
  ∧ (agrees "-1" "11" = true ↔ "11" = "01" ∨ "11" = "11").
Proof.
  repeat (split; [reflexivity|]).
  exact (combine_agrees_with_parents "01" "11" "-1" "11"
           eq_refl eq_refl eq_refl eq_refl eq_refl).
Defined.

Lemma pair_loop_any_order_witness :
  (∀ x, x ∈ ["01"; "11"] ↔ x ∈ ({["01"; "11"]} : gset string))
  ∧ (∀ x, x ∈ ["11"; "01"] ↔ x ∈ ({["01"; "11"]} : gset string))
  ∧ foldr (λ a st, foldr (pair_step a) st ["11"; "01"])
          (∅, {["01"; "11"]}) ["01"; "11"]
    = pair_loop {["01"; "11"]}.
Proof.
  assert (∀ x, x ∈ ["01"; "11"] ↔ x ∈ ({["01"; "11"]} : gset string)) as H1.
  { intros x. rewrite !elem_of_cons, elem_of_nil, elem_of_union,
      !elem_of_singleton. tauto. }
  assert (∀ x, x ∈ ["11"; "01"] ↔ x ∈ ({["01"; "11"]} : gset string)) as H2.
  { intros x. rewrite !elem_of_cons, elem_of_nil, elem_of_union,
      !elem_of_singleton. tauto. }
  split; [exact H1|]. split; [exact H2|].
  exact (pair_loop_any_order {["01"; "11"]} ["01"; "11"] ["11"; "01"] H1 H2).
Defined.

Lemma qm_simplify_raises_on_negative_width_witness :
  -1 < 0 ∧ ({[1]} : gset Z) ≠ ∅ ∧ qm_simplify 1 {[1]} (-1) = ValueError.
Proof.
  assert (-1 < 0) as H1 by lia.
  assert (({[1]} : gset Z) ≠ ∅) as H2.
  { intros H. apply (not_elem_of_empty (C:=gset Z) 1). rewrite <- H.
    by apply elem_of_singleton. }
  split; [exact H1|]. split; [exact H2|].
  exact (qm_simplify_raises_on_negative_width 0 {[1]} (-1) H1 H2).
Defined.

Lemma combined_pattern_reencodes_to_smaller_witness :
  1 ≤ 2 ∧ 0 ≤ 1 < 2 ^ 2 ∧ 0 ≤ 3 < 2 ^ 2
  ∧ Py.format_bin 1 2 = Some "01" ∧ Py.format_bin 3 2 = Some "11"
  ∧ combine "01" "11" = Some "-1"
  ∧ Py.int2 (Py.replace_dash "-1") = Some (1 `min` 3).
Proof.
  assert (1 ≤ 2) as H1 by lia.
  assert (0 ≤ 1 < 2 ^ 2) as H2 by (change (2 ^ 2) with 4; lia).
  assert (0 ≤ 3 < 2 ^ 2) as H3 by (change (2 ^ 2) with 4; lia).
  split; [exact H1|]. split; [exact H2|]. split; [exact H3|].
  repeat (split; [reflexivity|]).
  exact (combined_pattern_reencodes_to_smaller 2 1 3 "01" "11" "-1"
           H1 H2 H3 eq_refl eq_refl eq_refl).
Defined.

Lemma in_range_1_3 : in_range 2 {[1; 3]}.
Proof. apply in_range_union; apply in_range_singleton; lia. Qed.

Lemma elem_of_1_3 : 1 ∈ ({[1; 3]} : gset Z) ∧ 3 ∈ ({[1; 3]} : gset Z).
Proof.
  split; apply elem_of_union; [left|right]; by apply elem_of_singleton.
Qed.

Lemma bounds_1_3 z : z ∈ ({[1; 3]} : gset Z) → 1 ≤ z ∧ z ≤ 3.
Proof. intros [->%elem_of_singleton | ->%elem_of_singleton]%elem_of_union; lia. Qed.

Lemma adjacent_1_3 : adjacent 2 1 3.
Proof. exists "01", "11". repeat split. by exists "-1". Qed.

Lemma next_level_minterms_witness :
  1 ≤ 2 ∧ in_range 2 {[1; 3]}
  ∧ encode_terms {[1; 3]} 2 = Some {["01"; "11"]}
  ∧ next_minterms (pair_loop {["01"; "11"]}).1 = Some {[1]}
  ∧ ∀ x, x ∈ ({[1]} : gset Z) ↔
         x ∈ ({[1; 3]} : gset Z)
         ∧ ∃ y, y ∈ ({[1; 3]} : gset Z) ∧ x < y ∧ adjacent 2 x y.
Proof.
  assert (1 ≤ 2) as H1 by lia.
  assert (encode_terms {[1; 3]} 2 = Some {["01"; "11"]}) as H3
      by (vm_compute; reflexivity).
  assert (next_minterms (pair_loop {["01"; "11"]}).1 = Some {[1]}) as H4
      by (vm_compute; reflexivity).
  split; [exact H1|]. split; [exact in_range_1_3|].
  split; [exact H3|]. split; [exact H4|].
  exact (next_level_minterms {[1; 3]} {[1]} 2 {["01"; "11"]}
           H1 in_range_1_3 H3 H4).
Defined.

Lemma isolated_minterm_is_returned_witness :
  1 ≤ 2 ∧ in_range 2 {[0; 3]} ∧ 0 ∈ ({[0; 3]} : gset Z)
  ∧ (∀ y, y ∈ ({[0; 3]} : gset Z) → ¬ adjacent 2 0 y)
  ∧ ∃ r s, (∀ fuel, (S (Z.to_nat 2) ≤ fuel)%nat →
                    qm_simplify fuel {[0; 3]} 2 = Returned r)
           ∧ Py.format_bin 0 2 = Some s ∧ s ∈ r.
Proof.
  assert (1 ≤ 2) as H1 by lia.
  assert (in_range 2 {[0; 3]}) as H2
      by (apply in_range_union; apply in_range_singleton; lia).
  assert (0 ∈ ({[0; 3]} : gset Z)) as H3
      by (apply elem_of_union; left; by apply elem_of_singleton).
  assert (∀ y, y ∈ ({[0; 3]} : gset Z) → ¬ adjacent 2 0 y) as H4.
  { intros y [->%elem_of_singleton | ->%elem_of_singleton]%elem_of_union
      (a & b & [= <-] & [= <-] & [c Hc]); discriminate Hc. }
  split; [exact H1|]. split; [exact H2|]. split; [exact H3|]. split; [exact H4|].
  exact (isolated_minterm_is_returned {[0; 3]} 2 0 H1 H2 H3 H4).
Defined.

Lemma largest_adjacent_minterm_is_dropped_witness :
  1 ≤ 2 ∧ in_range 2 {[1; 3]} ∧ 3 ∈ ({[1; 3]} : gset Z)
  ∧ (∀ z, z ∈ ({[1; 3]} : gset Z) → z ≤ 3)
  ∧ 1 ∈ ({[1; 3]} : gset Z) ∧ adjacent 2 1 3
  ∧ ∃ r, (∀ fuel, (S (Z.to_nat 2) ≤ fuel)%nat →
                  qm_simplify fuel {[1; 3]} 2 = Returned r)
         ∧ ∀ p, p ∈ r → covers p 3 2 = false.
Proof.
  assert (1 ≤ 2) as H1 by lia.
  assert (∀ z, z ∈ ({[1; 3]} : gset Z) → z ≤ 3) as H4
      by (intros z Hz; apply (bounds_1_3 z Hz)).
  split; [exact H1|]. split; [exact in_range_1_3|].
  split; [exact (proj2 elem_of_1_3)|]. split; [exact H4|].
  split; [exact (proj1 elem_of_1_3)|]. split; [exact adjacent_1_3|].
  exact (largest_adjacent_minterm_is_dropped {[1; 3]} 2 1 3 H1 in_range_1_3
           (proj2 elem_of_1_3) H4 (proj1 elem_of_1_3) adjacent_1_3).
Defined.

Lemma smallest_minterm_is_returned_witness :
  1 ≤ 2 ∧ in_range 2 {[1; 3]} ∧ 1 ∈ ({[1; 3]} : gset Z)
  ∧ (∀ z, z ∈ ({[1; 3]} : gset Z) → 1 ≤ z)
  ∧ ∃ r s, (∀ fuel, (S (Z.to_nat 2) ≤ fuel)%nat →
                    qm_simplify fuel {[1; 3]} 2 = Returned r)
           ∧ Py.format_bin 1 2 = Some s ∧ s ∈ r.
Proof.
  assert (1 ≤ 2) as H1 by lia.
  assert (∀ z, z ∈ ({[1; 3]} : gset Z) → 1 ≤ z) as H4
      by (intros z Hz; apply (bounds_1_3 z Hz)).
  split; [exact H1|]. split; [exact in_range_1_3|].
  split; [exact (proj1 elem_of_1_3)|]. split; [exact H4|].
  exact (smallest_minterm_is_returned {[1; 3]} 2 1 H1 in_range_1_3
           (proj1 elem_of_1_3) H4).
Defined.

Lemma returned_patterns_render_as_full_terms_witness :
  1 ≤ 2 ∧ in_range 2 {[1; 3]} ∧ length ["A"; "B"] = Z.to_nat 2
  ∧ ∃ r, (∀ fuel, (S (Z.to_nat 2) ≤ fuel)%nat →
                  qm_simplify fuel {[1; 3]} 2 = Returned r)
         ∧ ∀ p, p ∈ r →
                ∃ lits, bits_to_expr p ["A"; "B"] = Py.join "." lits
                        ∧ Forall2 (λ v lit, lit = v ∨ lit = "!" ++ v)
                                  ["A"; "B"] lits.
Proof.
  assert (1 ≤ 2) as H1 by lia.
  split; [exact H1|]. split; [exact in_range_1_3|]. split; [reflexivity|].
  exact (returned_patterns_render_as_full_terms {[1; 3]} 2 ["A"; "B"]
           H1 in_range_1_3 eq_refl).
Defined.

Lemma bits_to_expr_ignores_the_excess_witness :
  String.length "01" = length ["A"; "B"]
  ∧ bits_to_expr ("01" ++ "1") ["A"; "B"] = bits_to_expr "01" ["A"; "B"]
  ∧ bits_to_expr "01" (["A"; "B"] ++ ["C"]) = bits_to_expr "01" ["A"; "B"].
Proof.
  split; [reflexivity|].
  exact (bits_to_expr_ignores_the_excess "01" "1" ["A"; "B"] ["C"] eq_refl).
Defined.

Lemma main_minterms_are_the_true_rows_witness :
  Z.of_nat (length [0; 1; 0; 1]) = 2 ^ 2
  ∧ in_range 2 (main_minterms [0; 1; 0; 1])
  ∧ ∀ i, i ∈ main_minterms [0; 1; 0; 1] ↔
         ∃ k : nat, i = Z.of_nat k ∧ [0; 1; 0; 1] !! k = Some 1.
Proof.
  split; [reflexivity|].
  exact (main_minterms_are_the_true_rows [0; 1; 0; 1] 2 eq_refl).
Defined.

Lemma main_simplified_returns_true_rows_witness :
  (1 ≤ length ["A"; "B"])%nat
  ∧ Z.of_nat (length [0; 1; 0; 1]) = 2 ^ Z.of_nat (length ["A"; "B"])
  ∧ ∃ r, (∀ fuel, (S (length ["A"; "B"]) ≤ fuel)%nat →
                  main_simplified fuel
                    {| expr := Some "B"; dontcare := None;
                       kmap := false; example := false |}
                    [0; 1; 0; 1] ["A"; "B"] = Returned r)
         ∧ ∀ p, p ∈ r →
                ∃ k : nat, [0; 1; 0; 1] !! k = Some 1
                           ∧ Py.format_bin (Z.of_nat k)
                               (Z.of_nat (length ["A"; "B"])) = Some p.
Proof.
  assert (1 ≤ length ["A"; "B"])%nat as H1 by (simpl; lia).
  split; [exact H1|]. split; [reflexivity|].
  exact (main_simplified_returns_true_rows
           {| expr := Some "B"; dontcare := None;
              kmap := false; example := false |}
           [0; 1; 0; 1] ["A"; "B"] H1 eq_refl).
Defined.

Lemma combinations_spell_the_encodings_witness :
  (1 ≤ 2)%nat ∧ product01 2 !! 3%nat = Some [1; 1]
  ∧ length (product01 2) = (2 ^ 2)%nat
  ∧ length [1; 1] = 2%nat
  ∧ Py.format_bin (Z.of_nat 3) (Z.of_nat 2) = Some (bits_string [1; 1]).
Proof.
  assert (1 ≤ 2)%nat as H1 by lia.
  split; [exact H1|]. split; [reflexivity|].
  exact (combinations_spell_the_encodings 2 3 [1; 1] H1 eq_refl).
Defined.

Lemma truth_table_rows_witness :
  truth_table (λ _, ["A"]) (λ _ d, dict_get "A" d) "A"
  = Some [[("A", 0); ("F", 0)]; [("A", 1); ("F", 1)]]
  ∧ length [[("A", 0); ("F", 0)]; [("A", 1); ("F", 1)]]
    = (2 ^ length ["A"])%nat
  ∧ ∀ i row,
      [[("A", 0); ("F", 0)]; [("A", 1); ("F", 1)]] !! i = Some row →
      ∃ combo, product01 (length ["A"]) !! i = Some combo
               ∧ dict_get "F" row
                 = dict_get "A" (dict_zip ["A"] combo).
Proof.
  split; [reflexivity|].
  exact (truth_table_rows (λ _, ["A"]) (λ _ d, dict_get "A" d) "A"
           [[("A", 0); ("F", 0)]; [("A", 1); ("F", 1)]] eq_refl).
Defined.

Lemma truth_table_minterms_witness :
  truth_table (λ _, ["A"]) (λ _ d, dict_get "A" d) "A"
  = Some [[("A", 0); ("F", 0)]; [("A", 1); ("F", 1)]]
  ∧ ∃ column,
      column_F [[("A", 0); ("F", 0)]; [("A", 1); ("F", 1)]] = Some column
      ∧ in_range (Z.of_nat (length ["A"])) (main_minterms column)
      ∧ ∀ i, i ∈ main_minterms column ↔
             ∃ (k : nat) combo,
               i = Z.of_nat k
               ∧ product01 (length ["A"]) !! k = Some combo
               ∧ dict_get "A" (dict_zip ["A"] combo) = Some 1.
Proof.
  split; [reflexivity|].
  exact (truth_table_minterms (λ _, ["A"]) (λ _ d, dict_get "A" d) "A"
           [[("A", 0); ("F", 0)]; [("A", 1); ("F", 1)]] eq_refl).
Defined.

Lemma NoDup_A_F : NoDup ["A"; "F"].
Proof.
  apply NoDup_cons. split; [by intros [= ]%list_elem_of_singleton|].
  apply NoDup_cons. split; [by intros ?%elem_of_nil|]. apply NoDup_nil_2.
Qed.

Lemma truth_table_row_keys_witness :
  NoDup ["A"; "F"] ∧ length ["A"; "F"] = length [1; 0]
  ∧ truth_table_row (λ _ d, dict_get "A" d) ["A"; "F"] "A&F" [1; 0]
    = Some [("A", 1); ("F", 1)]
  ∧ [("A", 1); ("F", 1)].*1
    = (if decide ("F" ∈ ["A"; "F"]) then ["A"; "F"] else ["A"; "F"] ++ ["F"])%list
  ∧ dict_get "F" [("A", 1); ("F", 1)]
    = dict_get "A" (dict_zip ["A"; "F"] [1; 0]).
Proof.
  split; [exact NoDup_A_F|]. split; [reflexivity|]. split; [reflexivity|].
  exact (truth_table_row_keys (λ _ d, dict_get "A" d) ["A"; "F"] "A&F" [1; 0]
           [("A", 1); ("F", 1)] NoDup_A_F eq_refl eq_refl).
Defined.

Lemma parse_expression_negated_name_witness :
  "A1" ≠ "" ∧ all_word "A1" = true
  ∧ parse_expression ("!" ++ "A1") = "(not " ++ "A1" ++ ")".
Proof.
  assert ("A1" ≠ "") as H1 by discriminate.
  split; [exact H1|]. split; [reflexivity|].
  exact (parse_expression_negated_name "A1" H1 eq_refl).
Defined.

Lemma bit_of_letter_A_B : Forall Logiccir.bit_of_letter [("A", 1); ("B", 0)].
Proof.
  repeat constructor.
  - exists "A"%char. repeat split; try discriminate. by right.
  - exists "B"%char. repeat split; try discriminate. by left.
Qed.

Lemma substitution_is_characterwise_witness :
  Forall Logiccir.bit_of_letter [("A", 1); ("B", 0)]
  ∧ Logiccir.substitute "A & ~B" [("A", 1); ("B", 0)]
    = Logiccir.flat_map_chars
        (Logiccir.substituted_char [("A", 1); ("B", 0)]) "A & ~B"
  ∧ String.length (Logiccir.substitute "A & ~B" [("A", 1); ("B", 0)])
    = String.length "A & ~B".
Proof.
  split; [exact bit_of_letter_A_B|].
  exact (substitution_is_characterwise "A & ~B" [("A", 1); ("B", 0)]
           bit_of_letter_A_B).
Defined.

Lemma logiccir_truth_table_rows_witness :
  Logiccir.truth_table (λ s, if String.eqb s "1" then Some 1 else Some 0)
    "A" ["A"]
  = Some [([0], 0); ([1], 1)]
  ∧ length [([0], 0); ([1], 1)] = (2 ^ length ["A"])%nat
  ∧ ∀ i combination result,
      [([0], 0); ([1], 1)] !! i = Some (combination, result) →
      product01 (length ["A"]) !! i = Some combination
      ∧ (if String.eqb
              (Logiccir.substitute "A" (dict_zip ["A"] combination)) "1"
         then Some 1 else Some 0) = Some result.
Proof.
  split; [reflexivity|].
  exact (logiccir_truth_table_rows
           (λ s, if String.eqb s "1" then Some 1 else Some 0) "A" ["A"]
           [([0], 0); ([1], 1)] eq_refl).
Defined.

Lemma simplified_terms_satisfy_the_expression_witness :
  (1 ≤ length ["A"])%nat
  ∧ truth_table (λ _, ["A"]) (λ _ d, dict_get "A" d) "A"
    = Some [[("A", 0); ("F", 0)]; [("A", 1); ("F", 1)]]
  ∧ ∃ column r,
      column_F [[("A", 0); ("F", 0)]; [("A", 1); ("F", 1)]] = Some column
      ∧ (∀ fuel, (S (length ["A"]) ≤ fuel)%nat →
                 main_simplified fuel
                   {| expr := Some "A"; dontcare := None;
                      kmap := false; example := false |}
                   column ["A"] = Returned r)
      ∧ ∀ p, p ∈ r →
             ∃ combo, combo ∈ product01 (length ["A"])
                      ∧ bits_string combo = p
                      ∧ dict_get "A" (dict_zip ["A"] combo) = Some 1.
Proof.
  assert (1 ≤ length ["A"])%nat as H1 by (simpl; lia).
  split; [exact H1|]. split; [reflexivity|].
  exact (simplified_terms_satisfy_the_expression
           (λ _, ["A"]) (λ _ d, dict_get "A" d)
           {| expr := Some "A"; dontcare := None;
              kmap := false; example := false |}
           "A" [[("A", 0); ("F", 0)]; [("A", 1); ("F", 1)]] H1 eq_refl).
Defined.
